(** * NEG controller core of ingress-gce: syncer manager, garbage collection,
      syncer retry loop and application-protocol annotations.

    A shallow embedding of [syncerManager] (package [neg]) with the
    interfaces it consumes, and the properties of its specification. *)

From stdpp Require Import gmap strings list fin_maps sorting pretty.
From Stdlib Require Import ZArith Lia.

Set Warnings "-register-all,-clear-no-such-hyp".

Open Scope Z_scope.
Open Scope string_scope.
Open Scope list_scope.

(** ** Keys *)

(** [serviceKey]: a service's namespace and name. *)
Record serviceKey := {
  svc_namespace : string;
  svc_name : string
}.

(** [servicePort]: the key of one syncer. [port] is an [int32] in the
    source; the manager only compares and stores it. *)
Record servicePort := {
  namespace : string;
  name : string;
  port : Z;
  targetPort : string
}.

#[global] Instance serviceKey_eq_dec : EqDecision serviceKey.
Proof. solve_decision. Defined.

#[global] Instance servicePort_eq_dec : EqDecision servicePort.
Proof. solve_decision. Defined.

#[global] Instance serviceKey_countable : Countable serviceKey.
Proof.
  refine (inj_countable' (λ k, (svc_namespace k, svc_name k))
            (λ p, Build_serviceKey p.1 p.2) _).
  by intros [].
Defined.

#[global] Instance servicePort_countable : Countable servicePort.
Proof.
  refine (inj_countable'
            (λ k, (namespace k, name k, port k, targetPort k))
            (λ p, Build_servicePort p.1.1.1 p.1.1.2 p.1.2 p.2) _).
  by intros [].
Defined.

Definition getSyncerKey (namespace name : string) (port : Z)
    (targetPort : string) : servicePort :=
  {| namespace := namespace; name := name;
     port := port; targetPort := targetPort |}.

Definition getServiceKey (namespace name : string) : serviceKey :=
  {| svc_namespace := namespace; svc_name := name |}.

(** The service a syncer key belongs to. *)
Definition serviceOf (k : servicePort) : serviceKey :=
  getServiceKey (namespace k) (name k).

(** ** Port name maps *)

(** [PortNameMap] is [map[int32]string]: service port to target port. *)
Abbreviation PortNameMap := (gmap Z string).

(** Modelled from the spec: the source of [PortNameMap.Difference] is not
    among the sources embedded here. Section 4.G diffs the incoming map
    against the stored one by [(port, targetPort)] entry, so
    [Difference p1 p2] keeps the entries of [p1] that are not entries of
    [p2]. *)
Definition Difference (p1 p2 : PortNameMap) : PortNameMap :=
  filter (λ e, p2 !! e.1 ≠ Some e.2) p1.

(** ** Errors *)

Inductive cloudError :=
  | NotFound
  | ServerError (code : Z).

Inductive error :=
  | ErrAlreadyRunning (k : servicePort)
  | ErrShuttingDown (k : servicePort)
  | ErrCloud (e : cloudError)
  | Errorf (msg : string) (args : list string) (cause : error)
  | Aggregate (errs : list error).

(** [utilerrors.NewAggregate]: [nil] for an empty list, otherwise one error
    that holds them all. *)
Definition NewAggregate (errList : list error) : option error :=
  match errList with
  | [] => None
  | _ => Some (Aggregate errList)
  end.

(** ** Syncers as the manager sees them *)

(** The three states of section 3. *)
Inductive SyncerState := Stopped | Running | ShuttingDown.

(** Modelled from the spec: the implementation behind the [negSyncer]
    interface is not among the sources embedded here. The states and
    transitions are those of section 4.F. The two flags are the ones
    observed by [TestStartAndStopNoopSyncer]: a new syncer is stopped and not
    shutting down, [Stop] raises both flags at once, and the worker clears
    [shuttingDown] when its loop exits. [ident] is the identity of the Go
    object (the manager stores a pointer); [dirty] is the pending poke. *)
Record negSyncer := {
  NegSyncerKey : servicePort;
  negName : string;
  ident : nat;
  stopped : bool;
  shuttingDown : bool;
  dirty : bool
}.

Definition newSyncer (svcPort : servicePort) (networkEndpointGroupName : string)
    (id : nat) : negSyncer :=
  {| NegSyncerKey := svcPort; negName := networkEndpointGroupName;
     ident := id; stopped := true; shuttingDown := false; dirty := false |}.

Definition IsStopped (s : negSyncer) : bool := stopped s.
Definition IsShuttingDown (s : negSyncer) : bool := shuttingDown s.

Definition stateOf (s : negSyncer) : SyncerState :=
  if stopped s then (if shuttingDown s then ShuttingDown else Stopped)
  else Running.

(** [start()]: requires [Stopped]; transitions to [Running] and schedules an
    immediate sync. In any other state it fails and changes nothing. *)
Definition Start (s : negSyncer) : negSyncer * option error :=
  if negb (IsStopped s) then (s, Some (ErrAlreadyRunning (NegSyncerKey s)))
  else if IsShuttingDown s then (s, Some (ErrShuttingDown (NegSyncerKey s)))
  else ({| NegSyncerKey := NegSyncerKey s; negName := negName s;
           ident := ident s; stopped := false; shuttingDown := false;
           dirty := true |}, None).

(** [stop()]: from [Running] to [ShuttingDown]; otherwise a no-op. *)
Definition Stop (s : negSyncer) : negSyncer :=
  if stopped s then s
  else {| NegSyncerKey := NegSyncerKey s; negName := negName s;
          ident := ident s; stopped := true; shuttingDown := true;
          dirty := dirty s |}.

(** [sync()]: the external poke; sets [dirty]. The manager drops the
    boolean the Go method returns. *)
Definition Sync (s : negSyncer) : negSyncer :=
  {| NegSyncerKey := NegSyncerKey s; negName := negName s;
     ident := ident s; stopped := stopped s; shuttingDown := shuttingDown s;
     dirty := true |}.

(** The worker's loop observes the stop signal at an iteration boundary and
    exits: the syncer is then fully stopped. *)
Definition loopExit (s : negSyncer) : negSyncer :=
  if stopped s && shuttingDown s then
    {| NegSyncerKey := NegSyncerKey s; negName := negName s;
       ident := ident s; stopped := true; shuttingDown := false;
       dirty := dirty s |}
  else s.

(** ** The namer interface *)

(** [networkEndpointGroupNamer]: the two methods the manager calls. *)
Record networkEndpointGroupNamer := {
  NEG : string → string → Z → string;
  IsNEG : string → bool
}.

(** ** The manager *)

(** [svcPortMap] and [syncerMap] are the two Go maps. [allocated] counts the
    syncer objects constructed so far and gives the next object its
    identity. The recorder, the listers and the zone getter are only handed
    on to the syncers; the cloud is threaded through [GC] separately. *)
Record syncerManager := {
  namer : networkEndpointGroupNamer;
  svcPortMap : gmap serviceKey PortNameMap;
  syncerMap : gmap servicePort negSyncer;
  allocated : nat
}.

Definition newSyncerManager (namer : networkEndpointGroupNamer)
    : syncerManager :=
  {| namer := namer; svcPortMap := ∅; syncerMap := ∅; allocated := 0 |}.

Definition setSvcPortMap (manager : syncerManager)
    (f : gmap serviceKey PortNameMap → gmap serviceKey PortNameMap)
    : syncerManager :=
  {| namer := namer manager; svcPortMap := f (svcPortMap manager);
     syncerMap := syncerMap manager; allocated := allocated manager |}.

Definition setSyncerMap (manager : syncerManager)
    (f : gmap servicePort negSyncer → gmap servicePort negSyncer)
    : syncerManager :=
  {| namer := namer manager; svcPortMap := svcPortMap manager;
     syncerMap := f (syncerMap manager); allocated := allocated manager |}.

(** One iteration of the loop over [removes]. *)
Definition stopPort (namespace name : string) (manager : syncerManager)
    (e : Z * string) : syncerManager :=
  let k := getSyncerKey namespace name e.1 e.2 in
  match syncerMap manager !! k with
  | Some syncer => setSyncerMap manager <[k := Stop syncer]>
  | None => manager
  end.

(** The lookup-or-construct at the head of the loop over [adds]. *)
Definition lookupOrNew (namespace name : string) (manager : syncerManager)
    (svcPort : Z) (targetPort : string) : syncerManager * negSyncer :=
  let k := getSyncerKey namespace name svcPort targetPort in
  match syncerMap manager !! k with
  | Some syncer => (manager, syncer)
  | None =>
      let syncer :=
        newSyncer k (NEG (namer manager) namespace name svcPort)
          (allocated manager) in
      ({| namer := namer manager; svcPortMap := svcPortMap manager;
          syncerMap := <[k := syncer]> (syncerMap manager);
          allocated := S (allocated manager) |}, syncer)
  end.

(** One iteration of the loop over [adds]. *)
Definition addPort (namespace name : string)
    (acc : syncerManager * list error) (e : Z * string)
    : syncerManager * list error :=
  let k := getSyncerKey namespace name e.1 e.2 in
  let r := lookupOrNew namespace name acc.1 e.1 e.2 in
  if IsStopped r.2 then
    let st := Start r.2 in
    (setSyncerMap r.1 <[k := st.1]>,
     match st.2 with
     | Some err => acc.2 ++ [err]
     | None => acc.2
     end)
  else (r.1, acc.2).

(** [EnsureSyncers] starts and stops syncers based on the input service
    ports. Go ranges over a map in no fixed order; the model ranges in the
    order of [map_to_list]. *)
Definition EnsureSyncers (manager : syncerManager) (namespace name : string)
    (newPorts : PortNameMap) : syncerManager * option error :=
  let key := getServiceKey namespace name in
  let currentPorts := default ∅ (svcPortMap manager !! key) in
  let removes := Difference currentPorts newPorts in
  let adds := Difference newPorts currentPorts in
  let manager := setSvcPortMap manager <[key := newPorts]> in
  let manager := foldl (stopPort namespace name) manager (map_to_list removes) in
  let r := foldl (addPort namespace name) (manager, []) (map_to_list adds) in
  (r.1, NewAggregate r.2).

(** [StopSyncer] stops all syncers for the input service. *)
Definition StopSyncer (manager : syncerManager) (namespace name : string)
    : syncerManager :=
  let key := getServiceKey namespace name in
  match svcPortMap manager !! key with
  | Some ports =>
      let manager := foldl (stopPort namespace name) manager (map_to_list ports) in
      setSvcPortMap manager (delete key)
  | None => manager
  end.

(** One iteration of the loop of [Sync]. *)
Definition syncPort (namespace name : string) (manager : syncerManager)
    (e : Z * string) : syncerManager :=
  let k := getSyncerKey namespace name e.1 e.2 in
  match syncerMap manager !! k with
  | Some syncer =>
      if negb (IsStopped syncer) then setSyncerMap manager <[k := Sync syncer]>
      else manager
  | None => manager
  end.

(** The manager's [Sync] signals all syncers related to the service to
    sync. It is [SyncService] here: [Sync] is the syncer's method. *)
Definition SyncService (manager : syncerManager) (namespace name : string)
    : syncerManager :=
  let key := getServiceKey namespace name in
  match svcPortMap manager !! key with
  | Some portList => foldl (syncPort namespace name) manager (map_to_list portList)
  | None => manager
  end.

(** [ShutDown] signals all syncers to stop. *)
Definition ShutDown (manager : syncerManager) : syncerManager :=
  setSyncerMap manager (fmap Stop).

(** What one pass of the loop over [adds] does to a syncer it finds or has
    just constructed, and the error it appends. *)
Definition restart (s : negSyncer) : negSyncer :=
  if IsStopped s then (Start s).1 else s.

Definition startError (o : option negSyncer) : option error :=
  match o with
  | Some s => if IsStopped s then (Start s).2 else None
  | None => None
  end.

(** ** Keys addressed by a loop over a port map *)

Definition keysOf (namespace name : string) (l : list (Z * string))
    : list servicePort :=
  (λ e, getSyncerKey namespace name e.1 e.2) <$> l.

(** [k] is the key of an entry of [P] for the service [(namespace, name)]. *)
Definition entryOf (namespace name : string) (P : PortNameMap)
    (k : servicePort) : Prop :=
  serviceOf k = getServiceKey namespace name ∧
  P !! port k = Some (targetPort k).

(** The syncer found under [k], or the one [newSyncer] builds with
    identity [id]. *)
Definition foundOrNew (ns n : string) (m : syncerManager) (k : servicePort)
    (id : nat) : negSyncer :=
  default (newSyncer k (NEG (namer m) ns n (port k)) id) (syncerMap m !! k).

#[global] Instance entryOf_dec ns n P k : Decision (entryOf ns n P k).
Proof. unfold entryOf. apply _. Defined.

(** The port map stored for a service, empty when there is none. *)
Definition currentPorts (m : syncerManager) (ns n : string) : PortNameMap :=
  default ∅ (svcPortMap m !! getServiceKey ns n).

(** ** Garbage collection of syncers *)

Definition getAllStoppedSyncerKeys (manager : syncerManager)
    : list servicePort :=
  omap (λ e : servicePort * negSyncer, if IsStopped e.2 then Some e.1 else None)
    (map_to_list (syncerMap manager)).

(** [garbageCollectSyncer] reads [syncerMap[key]] twice and calls a method on
    it. [GC] only passes keys taken from the map, and nothing removes them
    in between, so the lookup of a missing key (a nil interface in Go) does
    not arise; the model leaves the manager as it is there. *)
Definition garbageCollectSyncer (manager : syncerManager) (key : servicePort)
    : syncerManager :=
  match syncerMap manager !! key with
  | Some syncer =>
      if IsStopped syncer && negb (IsShuttingDown syncer)
      then setSyncerMap manager (delete key)
      else manager
  | None => manager
  end.

(** The first loop of [GC]. *)
Definition collectSyncers (manager : syncerManager) : syncerManager :=
  foldl garbageCollectSyncer manager (getAllStoppedSyncerKeys manager).

(** The worker of the syncer registered under [k] leaves its loop. Of what
    the workers do on their own, this is the step that changes a lifecycle
    flag the manager reads. *)
Definition workerExit (manager : syncerManager) (k : servicePort)
    : syncerManager :=
  setSyncerMap manager (alter loopExit k).

(** ** Reachable manager states and their invariant *)


(** Every syncer that is not stopped is declared in the port map of its
    service, and every registered syncer was numbered by [allocated]. *)
Record wf (m : syncerManager) : Prop := {
  wf_declared : ∀ k s,
    syncerMap m !! k = Some s → IsStopped s = false →
    entryOf (namespace k) (name k) (currentPorts m (namespace k) (name k)) k;
  wf_ident : ∀ k s, syncerMap m !! k = Some s → (ident s < allocated m)%nat
}.

(** ** The cloud behind [NetworkEndpointGroupCloud] *)

(** A NEG as the provider returns it. The manager reads [Name] only. *)
Record NetworkEndpointGroup := {
  Name : string;
  Network : string;
  Subnetwork : string
}.

Inductive cloudCall :=
  | CallAggregatedList
  | CallGet (name zone : string)
  | CallDelete (name zone : string).

#[global] Instance cloudCall_eq_dec : EqDecision cloudCall.
Proof. solve_decision. Defined.

(** Modelled from the spec: the provider is an external collaborator, known
    here through the interface and the table of section 4.E. [negs] maps a
    zone to the NEGs it holds. Every call may fail: [listFault], [getFault]
    and [deleteFault] say which calls the provider refuses and with which
    error. [calls] records the calls made, oldest first. *)
Record cloudState := {
  negs : gmap string (list NetworkEndpointGroup);
  listFault : option cloudError;
  getFault : string → string → option cloudError;
  deleteFault : string → string → option cloudError;
  calls : list cloudCall
}.

Definition logCall (c : cloudState) (call : cloudCall) : cloudState :=
  {| negs := negs c; listFault := listFault c; getFault := getFault c;
     deleteFault := deleteFault c; calls := calls c ++ [call] |}.

Definition setNegs (c : cloudState)
    (f : gmap string (list NetworkEndpointGroup) → gmap string (list NetworkEndpointGroup))
    : cloudState :=
  {| negs := f (negs c); listFault := listFault c; getFault := getFault c;
     deleteFault := deleteFault c; calls := calls c |}.

Definition hasName (name : string) (g : NetworkEndpointGroup) : bool :=
  bool_decide (Name g = name).

(** The NEG called [name] in [zone], if the cloud holds one. *)
Definition findNEG (c : cloudState) (name zone : string)
    : option NetworkEndpointGroup :=
  l ← negs c !! zone; head (filter (λ g, hasName name g = true) l).

(** [get(name, zone)]: read one NEG; [NotFound] is a distinguished error. *)
Definition GetNetworkEndpointGroup (c : cloudState) (name zone : string)
    : cloudState * (cloudError + NetworkEndpointGroup) :=
  let c := logCall c (CallGet name zone) in
  match getFault c name zone with
  | Some e => (c, inl e)
  | None =>
      match findNEG c name zone with
      | Some g => (c, inr g)
      | None => (c, inl NotFound)
      end
  end.

(** [delete(name, zone)]: removes the NEG; [NotFound] when there is none. *)
Definition DeleteNetworkEndpointGroup (c : cloudState) (name zone : string)
    : cloudState * option cloudError :=
  let c := logCall c (CallDelete name zone) in
  match deleteFault c name zone with
  | Some e => (c, Some e)
  | None =>
      match findNEG c name zone with
      | Some _ =>
          (setNegs c (alter (filter (λ g, hasName name g = false)) zone), None)
      | None => (c, Some NotFound)
      end
  end.

(** [aggregatedList()]: returns [zone → [NEG]]. *)
Definition AggregatedListNetworkEndpointGroup (c : cloudState)
    : cloudState * (cloudError + gmap string (list NetworkEndpointGroup)) :=
  let c := logCall c CallAggregatedList in
  match listFault c with
  | Some e => (c, inl e)
  | None => (c, inr (negs c))
  end.

(** ** Garbage collection of NEGs *)

(** [ensureDeleteNetworkEndpointGroup] ensures neg is deleted from zone. *)
Definition ensureDeleteNetworkEndpointGroup (c : cloudState)
    (name zone : string) : cloudState * option error :=
  match GetNetworkEndpointGroup c name zone with
  | (c, inl _) =>
      (* Assume error is caused by not existing *)
      (c, None)
  | (c, inr _) =>
      let r := DeleteNetworkEndpointGroup c name zone in
      (r.1, ErrCloud <$> r.2)
  end.

(** The order of Go's [sort.Strings]. *)
Definition strle (a b : string) : Prop := String.leb a b = true.

#[global] Instance strle_dec a b : Decision (strle a b).
Proof. unfold strle. apply _. Defined.

(** [sets.String.List]: the members, sorted. *)
Definition List (s : gset string) : list string :=
  merge_sort strle (elements s).

(** The first loop of [garbageCollectNEG]: the names the namer recognises. *)
Definition insertNEGNames (nm : networkEndpointGroupNamer)
    (negNames : gset string) (list : list NetworkEndpointGroup) : gset string :=
  foldl (λ acc neg, if IsNEG nm (Name neg) then {[Name neg]} ∪ acc else acc)
    negNames list.

Definition collectNEGNames (nm : networkEndpointGroupNamer)
    (zoneNEGList : gmap string (list NetworkEndpointGroup)) : gset string :=
  foldl (λ acc zl, insertNEGNames nm acc zl.2) ∅ (map_to_list zoneNEGList).

(** The second loop: drop the name of every declared service port. *)
Definition deleteServiceNames (nm : networkEndpointGroupNamer)
    (negNames : gset string) (e : serviceKey * PortNameMap) : gset string :=
  foldl (λ acc sp, acc ∖ {[NEG nm (svc_namespace e.1) (svc_name e.1) sp.1]})
    negNames (map_to_list e.2).

Definition deleteLiveNames (manager : syncerManager) (negNames : gset string)
    : gset string :=
  foldl (deleteServiceNames (namer manager)) negNames
    (map_to_list (svcPortMap manager)).

(** The inner loop of the deletion: it returns at the first error. *)
Fixpoint deleteNames (c : cloudState) (zone : string) (names : list string)
    : cloudState * option error :=
  match names with
  | [] => (c, None)
  | name :: names =>
      match ensureDeleteNetworkEndpointGroup c name zone with
      | (c, Some err) =>
          (c, Some (Errorf "failed to delete NEG %q in %q: %v" [name; zone] err))
      | (c, None) => deleteNames c zone names
      end
  end.

(** The outer loop, over the zones of the aggregated list. *)
Fixpoint deleteZones (c : cloudState) (zones : list string)
    (names : list string) : cloudState * option error :=
  match zones with
  | [] => (c, None)
  | zone :: zones =>
      match deleteNames c zone names with
      | (c, Some err) => (c, Some err)
      | (c, None) => deleteZones c zones names
      end
  end.

Definition garbageCollectNEG (manager : syncerManager) (c : cloudState)
    : cloudState * option error :=
  match AggregatedListNetworkEndpointGroup c with
  | (c, inl err) =>
      (c, Some (Errorf "failed to retrieve aggregated NEG list: %v" []
                  (ErrCloud err)))
  | (c, inr zoneNEGList) =>
      let negNames := collectNEGNames (namer manager) zoneNEGList in
      let negNames := deleteLiveNames manager negNames in
      deleteZones c (map_to_list zoneNEGList).*1 (List negNames)
  end.

(** [GC] garbage collects syncers and NEGs. *)
Definition GC (manager : syncerManager) (c : cloudState)
    : syncerManager * cloudState * option error :=
  let manager := collectSyncers manager in
  match garbageCollectNEG manager c with
  | (c, Some err) =>
      (manager, c, Some (Errorf "Failed to garbage collect negs: %v" [] err))
  | (c, None) => (manager, c, None)
  end.

(** The cloud holds a NEG called [name] in [zone]. *)
Definition inCloud (c : cloudState) (name zone : string) : Prop :=
  ∃ l g, negs c !! zone = Some l ∧ g ∈ l ∧ Name g = name.




(** [c'] is [c] after some deletions: the faults are the same and no NEG
    has appeared. *)
Definition shrinks (c c' : cloudState) : Prop :=
  getFault c' = getFault c ∧ deleteFault c' = deleteFault c ∧
  ∀ name zone, inCloud c' name zone → inCloud c name zone.

(** [name] is the NEG name of a declared service port. *)
Definition live (m : syncerManager) (name : string) : Prop :=
  ∃ key P p tp, svcPortMap m !! key = Some P ∧ P !! p = Some tp ∧
    name = NEG (namer m) (svc_namespace key) (svc_name key) p.

(** ** A namer and a cloud to run the manager on *)

(** Modelled from the spec: the namer behind [networkEndpointGroupNamer] is
    not among the sources embedded here. This one follows the names of
    section 8, [k8s1-...-<namespace>-<name>-<port>], without the cluster UID
    and the truncating hash. *)
Definition testNamer : networkEndpointGroupNamer :=
  {| NEG := λ namespace name port,
       "k8s1-" +:+ namespace +:+ "-" +:+ name +:+ "-" +:+ pretty port;
     IsNEG := λ name, String.prefix "k8s1-" name |}.

Definition neg (name : string) : NetworkEndpointGroup :=
  {| Name := name; Network := "net"; Subnetwork := "subnet" |}.

(** A cloud with two orphan NEGs in one zone, and given faults. *)
Definition orphanCloud (getF deleteF : string → string → option cloudError)
    : cloudState :=
  {| negs := {[ "us-a" := [neg "k8s1-orphan-a"; neg "k8s1-orphan-b"] ]};
     listFault := None; getFault := getF; deleteFault := deleteF;
     calls := [] |}.

Definition noFault (name zone : string) : option cloudError := None.
Definition unavailable (name zone : string) : option cloudError :=
  Some (ServerError 503).

(** ** A service to run the manager on *)

Definition fooPorts : PortNameMap := {[ 80 := "http"; 443 := "https" ]}.

(** Both ports of [default/foo] declared: two running syncers. *)
Definition managerStarted : syncerManager :=
  (EnsureSyncers (newSyncerManager testNamer) "default" "foo" fooPorts).1.

(** Port 443 removed again: its syncer has been told to stop and its worker
    has not left the loop yet. *)
Definition managerReduced : syncerManager :=
  (EnsureSyncers managerStarted "default" "foo" {[ 80 := "http" ]}).1.

Definition key443 : servicePort := getSyncerKey "default" "foo" 443 "https".

(** The NEGs of both ports of [default/foo] in two zones, on a cloud that
    answers every call. *)
Definition fooCloud : cloudState :=
  {| negs := {[ "us-a" := [neg "k8s1-default-foo-80"; neg "k8s1-default-foo-443"];
                "us-b" := [neg "k8s1-default-foo-80"; neg "k8s1-default-foo-443"] ]};
     listFault := None; getFault := noFault; deleteFault := noFault;
     calls := [] |}.

(** A provider that answers every delete with [NotFound]: the NEG the get
    has just returned is gone by the time the delete arrives. *)
Definition gone (name zone : string) : option cloudError := Some NotFound.



(** ** The syncer's retry loop (package [syncers]) *)

Module syncers.

(** Modelled from the spec: the backoff handler of section 4.H, built by
    [NewExponentialBackendOffHandler(maxRetries, minRetryDelay,
    maxRetryDelay)]. Of its source only the call in [TestRetryOnSyncError]
    is embedded here. [failures] counts the consecutive failures. *)
Record backoffHandler := {
  maxRetries : nat;
  base : nat;
  cap : nat;
  failures : nat
}.

Definition NewExponentialBackendOffHandler (maxRetries base cap : nat)
    : backoffHandler :=
  {| maxRetries := maxRetries; base := base; cap := cap; failures := 0 |}.

(** The delay before the next retry, [min(cap, base * 2^attempt)], or
    [None] once [maxRetries] is exceeded. *)
Definition NextRetryDelay (b : backoffHandler)
    : backoffHandler * option nat :=
  let b' := {| maxRetries := maxRetries b; base := base b; cap := cap b;
               failures := S (failures b) |} in
  if (maxRetries b <? S (failures b))%nat then (b', None)
  else (b', Some (Nat.min (cap b) (base b * 2 ^ failures b))).

Definition ResetRetryDelay (b : backoffHandler) : backoffHandler :=
  {| maxRetries := maxRetries b; base := base b; cap := cap b; failures := 0 |}.

(** Modelled from the spec: the syncer of section 4.F, whose source is not
    among the sources embedded here. [dirty] is the pending poke, [retry] the
    delay of the armed retry, [syncCount] the counter of [syncerTester] and
    [fatalEvents] the number of fatal failures recorded as events. *)
Record syncer := {
  state : SyncerState;
  dirty : bool;
  retry : option nat;
  backoff : backoffHandler;
  syncCount : nat;
  fatalEvents : nat
}.

Definition newSyncer (b : backoffHandler) : syncer :=
  {| state := Stopped; dirty := false; retry := None; backoff := b;
     syncCount := 0; fatalEvents := 0 |}.

(** [start()]: requires [Stopped]; transitions to [Running] and schedules
    an immediate sync. *)
Definition Start (s : syncer) : option syncer :=
  match state s with
  | Stopped =>
      Some {| state := Running; dirty := true; retry := None;
              backoff := backoff s; syncCount := syncCount s;
              fatalEvents := fatalEvents s |}
  | _ => None
  end.

(** [stop()]: from [Running] to [ShuttingDown]; otherwise a no-op. *)
Definition Stop (s : syncer) : syncer :=
  match state s with
  | Running =>
      {| state := ShuttingDown; dirty := dirty s; retry := retry s;
         backoff := backoff s; syncCount := syncCount s;
         fatalEvents := fatalEvents s |}
  | _ => s
  end.

(** [sync()]: the external poke. *)
Definition Sync (s : syncer) : syncer :=
  {| state := state s; dirty := true; retry := retry s;
     backoff := backoff s; syncCount := syncCount s;
     fatalEvents := fatalEvents s |}.

(** One run of the reconciliation body, which succeeds when [ok]. On success
    the backoff resets. On failure the next retry is armed, unless
    [maxRetries] is exceeded: then a fatal failure is recorded and no retry
    is armed. *)
Definition reconcile (ok : bool) (s : syncer) : syncer :=
  if ok then
    {| state := state s; dirty := false; retry := None;
       backoff := ResetRetryDelay (backoff s);
       syncCount := S (syncCount s); fatalEvents := fatalEvents s |}
  else
    let r := NextRetryDelay (backoff s) in
    {| state := state s; dirty := false; retry := r.2; backoff := r.1;
       syncCount := S (syncCount s);
       fatalEvents := match r.2 with
                      | Some _ => fatalEvents s
                      | None => S (fatalEvents s)
                      end |}.

(** One iteration of the worker's loop. At the iteration boundary a syncer
    that is shutting down becomes stopped. A running one reconciles when it
    has been poked or its retry is due, and blocks otherwise. Time is left
    out: an armed retry is due at the next iteration. *)
Definition iterate (ok : bool) (s : syncer) : syncer :=
  match state s with
  | ShuttingDown =>
      {| state := Stopped; dirty := dirty s; retry := None;
         backoff := backoff s; syncCount := syncCount s;
         fatalEvents := fatalEvents s |}
  | Stopped => s
  | Running =>
      if dirty s || bool_decide (is_Some (retry s)) then reconcile ok s else s
  end.

(** The worker left alone for [fuel] iterations; [body n] tells whether the
    reconciliation succeeds after [n] earlier attempts. *)
Fixpoint run (fuel : nat) (body : nat → bool) (s : syncer) : syncer :=
  match fuel with
  | O => s
  | S fuel => run fuel body (iterate (body (syncCount s)) s)
  end.

(** The worker waits: no iteration changes it until a poke or a stop. *)
Definition blocked (s : syncer) : Prop := ∀ ok, iterate ok s = s.

Definition alwaysFails (n : nat) : bool := false.

(** The syncer of [TestRetryOnSyncError], started. *)
Definition started (maxRetries base cap : nat) : syncer :=
  {| state := Running; dirty := true; retry := None;
     backoff := NewExponentialBackendOffHandler maxRetries base cap;
     syncCount := 0; fatalEvents := 0 |}.

End syncers.

(** ** Application protocols of a service (package [annotations]) *)

Module annotations.

Inductive annotationError :=
  | AnnotationMissing
  | AnnotationInvalid
  | UnknownPort
  | UnsupportedProtocol.

(** The value of an annotation after JSON decoding: [Malformed] when it is
    not an object of strings. *)
Inductive annotationValue :=
  | Malformed
  | Object (fields : gmap string string).

(** A service, for what the parser reads of it. *)
Record Service := {
  Annotations : gmap string annotationValue
}.

(** The feature flags read during parsing. *)
Record Features := {
  Http2 : bool
}.

Definition ServiceApplicationProtocolKey : string :=
  "service.alpha.kubernetes.io/app-protocols".
Definition GoogleServiceApplicationProtocolKey : string :=
  "cloud.google.com/app-protocols".

(** The protocols of one decoded annotation, checked entry by entry. *)
Fixpoint checkProtocols (F : Features) (l : list (string * string))
    : option annotationError :=
  match l with
  | [] => None
  | e :: l =>
      if bool_decide (e.2 = "HTTP") || bool_decide (e.2 = "HTTPS")
      then checkProtocols F l
      else if bool_decide (e.2 = "HTTP2")
      then (if Http2 F then checkProtocols F l else Some UnsupportedProtocol)
      else Some AnnotationInvalid
  end.

(** The annotation that counts: the user-owned key wins over the
    vendor-prefixed one. *)
Definition effective (svc : Service) : option annotationValue :=
  match Annotations svc !! ServiceApplicationProtocolKey with
  | Some v => Some v
  | None => Annotations svc !! GoogleServiceApplicationProtocolKey
  end.

(** Modelled from the spec: the source of [Service.ApplicationProtocols] is
    not among the sources embedded here; [TestService] calls it. Section
    4.A: the annotation
    accepts [port → "HTTP" | "HTTPS" | "HTTP2"], and [HTTP2] is rejected with
    [UnsupportedProtocol] unless the HTTP/2 feature flag is on; a service
    without the annotation has the empty map. *)
Definition ApplicationProtocols (F : Features) (svc : Service)
    : annotationError + gmap string string :=
  match effective svc with
  | None => inr ∅
  | Some Malformed => inl AnnotationInvalid
  | Some (Object portToProtos) =>
      match checkProtocols F (map_to_list portToProtos) with
      | Some err => inl err
      | None => inr portToProtos
      end
  end.

Definition accepted (proto : string) : Prop :=
  proto = "HTTP" ∨ proto = "HTTPS" ∨ proto = "HTTP2".

Definition withProtocols (m : gmap string string) : Service :=
  {| Annotations := {[ ServiceApplicationProtocolKey := Object m ]} |}.

Definition withAnnotations (l : list (string * annotationValue)) : Service :=
  {| Annotations := list_to_map l |}.

End annotations.

(** The state of the worker of [syncers.started] that has failed [j] times
    in a row and waits for its retry. *)
Definition retrying (maxRetries base cap j : nat) : syncers.syncer :=
  {| syncers.state := Running; syncers.dirty := false;
     syncers.retry := Some (Nat.min cap (base * 2 ^ (j - 1)));
     syncers.backoff :=
       {| syncers.maxRetries := maxRetries; syncers.base := base;
          syncers.cap := cap; syncers.failures := j |};
     syncers.syncCount := j; syncers.fatalEvents := 0 |}.

(** The state of that worker once [maxRetries] is exceeded at the [j]-th
    attempt after [fatal] earlier fatal failures. *)
Definition exhausted (maxRetries base cap j fatal : nat) : syncers.syncer :=
  {| syncers.state := Running; syncers.dirty := false; syncers.retry := None;
     syncers.backoff :=
       {| syncers.maxRetries := maxRetries; syncers.base := base;
          syncers.cap := cap; syncers.failures := j |};
     syncers.syncCount := j; syncers.fatalEvents := fatal |}.

(** ** What the registry keeps about each syncer *)


(** What the loop of [Sync] does to a syncer it addresses. *)
Definition poke (s : negSyncer) : negSyncer :=
  if IsStopped s then s else Sync s.

(** ** Server versions (package [validator]) *)

Module validator.

Import Stdlib.Strings.Ascii.

Inductive error :=
  | ErrNoDiscoveryClient (key : string)
  | ErrServerVersion (cause : string)
  | ErrNoComponents (version : string)
  | ErrSyntax (s : string)
  | ErrRange (s : string)
  | ErrUnsupported (key : string) (major minor patch : N).

(** [serverVersionNewEnough]: the arguments are [uint64] and only compared. *)
Definition serverVersionNewEnough (major minor patch : N) : bool :=
  (* 1.10.0 was buggy and doesn't work *)
  if (major =? 1)%N && (minor =? 10)%N && (patch =? 0)%N then false
  (* 1.8.1 was the first supported release. *)
  else if (1 <? major)%N then true
  else if (major <? 1)%N then false
  else if (8 <? minor)%N then true
  else if (minor <? 8)%N then false
  else if (1 <=? patch)%N then true
  else false.

Definition isDigit (c : Ascii.ascii) : bool :=
  (48 <=? Ascii.nat_of_ascii c)%nat && (Ascii.nat_of_ascii c <=? 57)%nat.

Definition digitValue (c : Ascii.ascii) : N := N.of_nat (Ascii.nat_of_ascii c - 48).

(** The loop of [strconv.ParseUint] in base 10: a syntax error at the first
    byte that is no digit, a range error as soon as the value passes
    [maxVal]. *)
Fixpoint parseDigits (s0 : string) (maxVal n : N) (s : string) : error + N :=
  match s with
  | EmptyString => inr n
  | String c s =>
      if isDigit c then
        let n1 := (n * 10 + digitValue c)%N in
        if (maxVal <? n1)%N then inl (ErrRange s0)
        else parseDigits s0 maxVal n1 s
      else inl (ErrSyntax s0)
  end.

(** [strconv.ParseUint(s, 10, bitSize)]. *)
Definition ParseUint (s : string) (bitSize : N) : error + N :=
  match s with
  | EmptyString => inl (ErrSyntax s)
  | _ => parseDigits s (2 ^ bitSize - 1)%N 0%N s
  end.

(** The ways a run of digits can match a prefix of [s], with what is left,
    in the order a greedy star tries them: longest first. *)
Fixpoint digitSplits (s : string) : list (string * string) :=
  match s with
  | EmptyString => [(EmptyString, EmptyString)]
  | String c s' =>
      if isDigit c
      then ((λ gr : string * string, (String c gr.1, gr.2)) <$> digitSplits s')
           ++ [(EmptyString, s)]
      else [(EmptyString, s)]
  end.

(** The table [first] of package [utf8], for a byte that begins a sequence
    of more than one byte: the size of the sequence and the range accepted
    for its second byte. Every other byte is a character of its own: the
    byte itself below 0x80, an encoding error otherwise. *)
Definition first (s0 : ascii) : option (nat * N * N) :=
  let b := N_of_ascii s0 in
  if (b <? 194)%N then None
  else if (b <=? 223)%N then Some (2%nat, 128%N, 191%N)
  else if (b =? 224)%N then Some (3%nat, 160%N, 191%N)
  else if (b <=? 236)%N then Some (3%nat, 128%N, 191%N)
  else if (b =? 237)%N then Some (3%nat, 128%N, 159%N)
  else if (b <=? 239)%N then Some (3%nat, 128%N, 191%N)
  else if (b =? 240)%N then Some (4%nat, 144%N, 191%N)
  else if (b <=? 243)%N then Some (4%nat, 128%N, 191%N)
  else if (b =? 244)%N then Some (4%nat, 128%N, 143%N)
  else None.

Definition inRange (lo hi : N) (c : ascii) : bool :=
  (lo <=? N_of_ascii c)%N && (N_of_ascii c <=? hi)%N.

(** [utf8.DecodeRuneInString], as the regexp reads its input: the bytes of
    the first character of [s] and what follows it. A sequence that is cut
    short or has a byte out of range is an encoding error, read as a
    character one byte wide. *)
Definition DecodeRuneInString (s : string) : option (string * string) :=
  match s with
  | EmptyString => None
  | String s0 r0 =>
      let invalid := Some (String s0 EmptyString, r0) in
      match first s0 with
      | None => Some (String s0 EmptyString, r0)
      | Some (sz, lo, hi) =>
          match r0 with
          | String s1 r1 =>
              if negb (inRange lo hi s1) then invalid
              else if (sz <=? 2)%nat
              then Some (String s0 (String s1 EmptyString), r1)
              else
                match r1 with
                | String s2 r2 =>
                    if negb (inRange 128 191 s2) then invalid
                    else if (sz <=? 3)%nat
                    then Some (String s0 (String s1 (String s2 EmptyString)), r2)
                    else
                      match r2 with
                      | String s3 r3 =>
                          if negb (inRange 128 191 s3) then invalid
                          else Some (String s0 (String s1 (String s2
                                       (String s3 EmptyString))), r3)
                      | EmptyString => invalid
                      end
                | EmptyString => invalid
                end
          | EmptyString => invalid
          end
      end
  end.

Definition newline : string := String "010" EmptyString.

(** The regexp's [.]: one character that is not a newline, with its bytes
    and what follows it. *)
Definition anyChar (s : string) : list (string * string) :=
  match DecodeRuneInString s with
  | Some (ch, r) => if String.eqb ch newline then [] else [(ch, r)]
  | None => []
  end.

(** All matches of [(D).(D).(D)] at the head of [s] with their submatches,
    in the order of preference of the regexp; [D] is a greedy run of the
    digits 0 to 9 and the dots are not escaped. *)
Definition submatches (s : string) : list (list string) :=
  gr1 ← digitSplits s;
  cr1 ← anyChar gr1.2;
  gr2 ← digitSplits cr1.2;
  cr2 ← anyChar gr2.2;
  gr3 ← digitSplits cr2.2;
  [ [String "v" (gr1.1 +:+ cr1.1 +:+ gr2.1 +:+ cr2.1 +:+ gr3.1);
     gr1.1; gr2.1; gr3.1] ].

(** [FindStringSubmatch] of the regexp of [parseVersion], [^v(D).(D).(D)]:
    the preferred match with its three groups, or [nil]. *)
Definition FindStringSubmatch (version : string) : list string :=
  match version with
  | String c s => if Ascii.eqb c "v" then default [] (head (submatches s)) else []
  | EmptyString => []
  end.

(** [parseVersion]. The regexp yields four strings or none, so the indices
    1 to 3 are in range once the length test has passed. *)
Definition parseVersion (version : string) : error + (N * N * N) :=
  let matches := FindStringSubmatch version in
  if (length matches <? 3)%nat then inl (ErrNoComponents version)
  else
    match ParseUint (nth 1 matches EmptyString) 32 with
    | inl err => inl err
    | inr major =>
        match ParseUint (nth 2 matches EmptyString) 32 with
        | inl err => inl err
        | inr minor =>
            match ParseUint (nth 3 matches EmptyString) 32 with
            | inl err => inl err
            | inr patch => inr (major, minor, patch)
            end
        end
    end.

(** A discovery client: its [ServerVersion] is an error or a git version. *)
Record DiscoveryInterface := {
  ServerVersion : string + string
}.

(** A cluster client; [Discovery] may be [nil]. *)
Record Interface := {
  Discovery : option DiscoveryInterface
}.

(** The body of the loop of [serverVersionsNewEnough]. *)
Definition checkClient (key : string) (c : Interface) : option error :=
  match Discovery c with
  | None => Some (ErrNoDiscoveryClient key)
  | Some discoveryClient =>
      match ServerVersion discoveryClient with
      | inl err => Some (ErrServerVersion err)
      | inr gitVersion =>
          match parseVersion gitVersion with
          | inl err => Some err
          | inr (major, minor, patch) =>
              if serverVersionNewEnough major minor patch then None
              else Some (ErrUnsupported key major minor patch)
          end
      end
  end.

Fixpoint checkClients (l : list (string * Interface)) : option error :=
  match l with
  | [] => None
  | kc :: l =>
      match checkClient kc.1 kc.2 with
      | Some err => Some err
      | None => checkClients l
      end
  end.

(** [serverVersionsNewEnough] returns an error if the version of any cluster
    is not supported. *)
Definition serverVersionsNewEnough (clients : gmap string Interface)
    : option error :=
  checkClients (map_to_list clients).

(** [Validate] performs pre-flight checks on the clusters and services; the
    ingress is not read. *)
Definition Validate {Ingress : Type} (clients : gmap string Interface)
    (ing : Ingress) : option error :=
  serverVersionsNewEnough clients.

Fixpoint allDigits (s : string) : bool :=
  match s with
  | EmptyString => true
  | String c s => isDigit c && allDigits s
  end.

Definition startsWithDigit (s : string) : bool :=
  match s with
  | EmptyString => false
  | String c _ => isDigit c
  end.

(** The version string [v<d1><c1><d2><c2><d3><rest>]. *)
Definition versionString (d1 : string) (c1 : ascii) (d2 : string) (c2 : ascii)
    (d3 rest : string) : string :=
  String "v" (d1 +:+ String c1 (d2 +:+ String c2 (d3 +:+ rest))).

Definition dot : ascii := ".".
Definition dash : ascii := "-".

(** The version string [v<d1><s1><d2><s2><d3><rest>] with separators of any
    width. *)
Definition versionOf (d1 s1 d2 s2 d3 rest : string) : string :=
  String "v" (d1 +:+ s1 +:+ d2 +:+ s2 +:+ d3 +:+ rest).

(** The two bytes of the letter e with an acute accent, and the first of
    them alone. *)
Definition eAcute : string := String "195" (String "169" EmptyString).
Definition cut : ascii := "195".

Definition withVersion (gitVersion : string) : Interface :=
  {| Discovery := Some {| ServerVersion := inr gitVersion |} |}.

End validator.

(** ** The cluster manager (package [controller]) *)

Module controller.

(** The three pools are interfaces of other packages. [W] is whatever state
    they share, [E] their errors; a method takes the state and returns the
    new one with its result. Only the methods [GC] calls are listed. *)
Record pools (W E : Type) := {
  l7Pool_GC : list string → W → W * option E;
  backendPool_GC : list Z → W → W * option E;
  instancePool_DeleteInstanceGroup : string → W → W * option E;
  ClusterNamer_InstanceGroup : string
}.

Arguments l7Pool_GC {W E}.
Arguments backendPool_GC {W E}.
Arguments instancePool_DeleteInstanceGroup {W E}.
Arguments ClusterNamer_InstanceGroup {W E}.

(** [GC] garbage collects unused resources. [nodePorts] stands for the
    [[]utils.ServicePort] that is only handed on to the backend pool. The
    last test compares the error of [DeleteInstanceGroup] with itself. *)
Definition GC {W E} `{EqDecision E} (c : pools W E) (lbNames : list string)
    (nodePorts : list Z) (w : W) : W * option E :=
  let r1 := l7Pool_GC c lbNames w in
  let lbErr := r1.2 in
  let r2 := backendPool_GC c nodePorts r1.1 in
  let beErr := r2.2 in
  match lbErr with
  | Some _ => (r2.1, lbErr)
  | None =>
      match beErr with
      | Some _ => (r2.1, beErr)
      | None =>
          if (length lbNames =? 0)%nat then
            let igName := ClusterNamer_InstanceGroup c in
            let r3 := instancePool_DeleteInstanceGroup c igName r2.1 in
            let err := r3.2 in
            if bool_decide (err ≠ err) then (r3.1, err) else (r3.1, None)
          else (r2.1, None)
      end
  end.

(** Pools that record the calls made on them and fail as told. *)
Inductive poolCall :=
  | L7GC (lbNames : list string)
  | BackendGC (nodePorts : list Z)
  | DeleteInstanceGroup (name : string).

Definition loggingPools (lbErr beErr igErr : option string)
    : pools (list poolCall) string :=
  {| l7Pool_GC := λ lbNames w, (w ++ [L7GC lbNames], lbErr);
     backendPool_GC := λ nodePorts w, (w ++ [BackendGC nodePorts], beErr);
     instancePool_DeleteInstanceGroup :=
       λ name w, (w ++ [DeleteInstanceGroup name], igErr);
     ClusterNamer_InstanceGroup := "k8s-ig" |}.

End controller.

(** ** Node ports of ingress backends (package [translator]) *)

Module translator.

(** [intstr.IntOrString]: the [Type] field says which of the two values
    counts. The [switch] of [getNodePortForIngressBackend] has a case for
    [intstr.Int] and a default, taken here by [Str]. *)
Inductive intstrType := Int | Str.

Record IntOrString := {
  Type_ : intstrType;
  IntVal : Z;
  StrVal : string
}.

(** [extensions.IngressBackend]. *)
Record IngressBackend := {
  ServiceName : string;
  ServicePort : IntOrString
}.

(** [api_v1.ServicePort], for the fields read; the ports are [int32]. *)
Record servicePortSpec := {
  Name : string;
  Port : Z;
  NodePort : Z
}.

(** [api_v1.Service], for the port list of its spec. *)
Record Service := {
  Ports : list servicePortSpec
}.

Inductive error :=
  | ErrNoMatchingNodePort.

(** The test inside the [switch]. *)
Definition matchesBackend (ib : IngressBackend) (sp : servicePortSpec) : bool :=
  match Type_ (ServicePort ib) with
  | Int => bool_decide (Port sp = IntVal (ServicePort ib))
  | Str => bool_decide (Name sp = StrVal (ServicePort ib))
  end.

(** One iteration of the loop: the [break] leaves the [switch], not the
    loop, so the iteration goes on with the next port. *)
Definition visitPort (ib : IngressBackend) (svcPort : option servicePortSpec)
    (sp : servicePortSpec) : option servicePortSpec :=
  if matchesBackend ib sp then Some sp else svcPort.

(** [getNodePortForIngressBackend] returns the NodePort for the Service
    referenced in the IngressBackend, as [int64]; [-1] with the error. *)
Definition getNodePortForIngressBackend (ib : IngressBackend) (svc : Service)
    : Z * option error :=
  match foldl (visitPort ib) None (Ports svc) with
  | None => (-1, Some ErrNoMatchingNodePort)
  | Some svcPort => (NodePort svcPort, None)
  end.

End translator.

(** * Properties of the manager *)

(** ** Facts about syncers *)

Lemma Stop_idemp s : Stop (Stop s) = Stop s.
Proof. unfold Stop. by destruct (stopped s) eqn:E; simpl; rewrite ?E. Qed.

Lemma Stop_IsStopped s : IsStopped (Stop s) = true.
Proof. unfold Stop, IsStopped. by destruct (stopped s) eqn:E; simpl. Qed.

Lemma Stop_ident s : ident (Stop s) = ident s.
Proof. unfold Stop. by destruct (stopped s). Qed.

Lemma Start_ident s : ident (Start s).1 = ident s.
Proof. unfold Start. by destruct (IsStopped s), (IsShuttingDown s). Qed.

Lemma Start_ok s :
  (Start s).2 = None ↔ IsStopped s = true ∧ IsShuttingDown s = false.
Proof. unfold Start. destruct (IsStopped s), (IsShuttingDown s); naive_solver. Qed.

Lemma Start_running s : (Start s).2 = None → IsStopped (Start s).1 = false.
Proof. unfold Start. by destruct (IsStopped s), (IsShuttingDown s). Qed.

Lemma Start_failed s e : (Start s).2 = Some e → (Start s).1 = s.
Proof. unfold Start. by destruct (IsStopped s), (IsShuttingDown s). Qed.

(** The lifecycle that [TestStartAndStopNoopSyncer] walks through: created,
    started, stopped while the worker is busy, worker gone, started again. *)
Example negSyncer_lifecycle k nm id :
  let s0 := newSyncer k nm id in
  let s1 := (Start s0).1 in
  let s2 := Stop s1 in
  let s3 := loopExit s2 in
  (IsStopped s0 = true ∧ IsShuttingDown s0 = false)
  ∧ ((Start s0).2 = None ∧ IsStopped s1 = false ∧ IsShuttingDown s1 = false)
  ∧ (IsStopped s2 = true ∧ IsShuttingDown s2 = true)
  ∧ (IsStopped s3 = true ∧ IsShuttingDown s3 = false)
  ∧ ((Start s3).2 = None ∧ IsStopped (Start s3).1 = false)
  ∧ (Start s2).2 = Some (ErrShuttingDown k).
Proof. by repeat split. Qed.

Lemma restart_ident s : ident (restart s) = ident s.
Proof. unfold restart. destruct (IsStopped s); [apply Start_ident | done]. Qed.

Lemma restart_new k nm id :
  restart (newSyncer k nm id)
  = {| NegSyncerKey := k; negName := nm; ident := id; stopped := false;
       shuttingDown := false; dirty := true |}.
Proof. done. Qed.



Lemma startError_Some s e :
  startError (Some s) = Some e ↔
  stateOf s = ShuttingDown ∧ e = ErrShuttingDown (NegSyncerKey s).
Proof.
  unfold startError, Start, stateOf, IsStopped, IsShuttingDown.
  destruct (stopped s) eqn:E1, (shuttingDown s) eqn:E2; simpl; naive_solver.
Qed.

(** ** Keys addressed by a loop over a port map *)

Lemma elem_of_keysOf ns n (P : PortNameMap) k :
  k ∈ keysOf ns n (map_to_list P) ↔ entryOf ns n P k.
Proof.
  unfold keysOf, entryOf, serviceOf, getServiceKey. rewrite list_elem_of_fmap. split.
  - intros [[p tp] [-> Hin]]. apply elem_of_map_to_list in Hin. by simpl.
  - intros [Hs Hp]. exists (port k, targetPort k). split.
    + destruct k; simpl in *. by simplify_eq.
    + by apply elem_of_map_to_list.
Qed.

Lemma NoDup_keysOf ns n (P : PortNameMap) : NoDup (keysOf ns n (map_to_list P)).
Proof.
  apply NoDup_fmap_2_strong; [|apply NoDup_map_to_list].
  intros [p tp] [p' tp'] _ _ Heq. unfold getSyncerKey in Heq. by simplify_eq/=.
Qed.

Lemma lookup_Difference (p1 p2 : PortNameMap) p tp :
  Difference p1 p2 !! p = Some tp ↔ p1 !! p = Some tp ∧ p2 !! p ≠ Some tp.
Proof. unfold Difference. by rewrite map_lookup_filter_Some. Qed.

Lemma entryOf_Difference ns n (p1 p2 : PortNameMap) k :
  entryOf ns n (Difference p1 p2) k ↔ entryOf ns n p1 k ∧ ¬ entryOf ns n p2 k.
Proof. unfold entryOf. rewrite lookup_Difference. naive_solver. Qed.

(** ** The loop over [removes] *)

Section stop_loop.
Context (ns n : string).

Lemma stopPort_frame m e :
  namer (stopPort ns n m e) = namer m ∧
  svcPortMap (stopPort ns n m e) = svcPortMap m ∧
  allocated (stopPort ns n m e) = allocated m.
Proof. unfold stopPort. by destruct (syncerMap m !! _). Qed.

Lemma stopPort_lookup m e k :
  syncerMap (stopPort ns n m e) !! k
  = if decide (k = getSyncerKey ns n e.1 e.2)
    then Stop <$> syncerMap m !! k else syncerMap m !! k.
Proof.
  unfold stopPort. case_decide as Hk.
  - subst k. destruct (syncerMap m !! _) eqn:E; simpl; [|by rewrite E].
    by rewrite lookup_insert_eq.
  - destruct (syncerMap m !! getSyncerKey _ _ _ _) eqn:E; simpl; [|done].
    by rewrite lookup_insert_ne.
Qed.

Lemma stopLoop_frame l m :
  namer (foldl (stopPort ns n) m l) = namer m ∧
  svcPortMap (foldl (stopPort ns n) m l) = svcPortMap m ∧
  allocated (foldl (stopPort ns n) m l) = allocated m.
Proof.
  revert m. induction l as [|e l IH]; intros m; simpl; [done|].
  destruct (IH (stopPort ns n m e)) as (-> & -> & ->). apply stopPort_frame.
Qed.

Lemma stopLoop_lookup l m k :
  syncerMap (foldl (stopPort ns n) m l) !! k
  = if decide (k ∈ keysOf ns n l)
    then Stop <$> syncerMap m !! k else syncerMap m !! k.
Proof.
  revert m. induction l as [|e l IH]; intros m.
  - destruct (decide _) as [H|]; [by apply elem_of_nil in H | done].
  - cbn [foldl]. rewrite IH, stopPort_lookup.
    change (keysOf ns n (e :: l)) with (getSyncerKey ns n e.1 e.2 :: keysOf ns n l).
    destruct (decide (k ∈ keysOf ns n l)), (decide (k = _)),
      (decide (k ∈ _ :: _)) as [Hin|Hnin]; try done.
    + destruct (syncerMap m !! k); simpl; [|done]. by rewrite Stop_idemp.
    + exfalso. apply Hnin. by right.
    + exfalso. apply Hnin. by right.
    + exfalso. apply Hnin. subst. by left.
    + exfalso. by apply elem_of_cons in Hin as [?|?].
Qed.
End stop_loop.

(** ** The loop over [adds] *)

Section add_loop.
Context (ns n : string).

Lemma addPort_frame acc e :
  namer (addPort ns n acc e).1 = namer acc.1 ∧
  svcPortMap (addPort ns n acc e).1 = svcPortMap acc.1 ∧
  (allocated acc.1 ≤ allocated (addPort ns n acc e).1)%nat.
Proof.
  unfold addPort, lookupOrNew.
  destruct (syncerMap acc.1 !! _) as [s|]; simpl.
  - destruct (IsStopped s); simpl; auto.
  - auto with lia.
Qed.

Lemma addPort_lookup acc e k :
  syncerMap (addPort ns n acc e).1 !! k
  = if decide (k = getSyncerKey ns n e.1 e.2)
    then Some (restart (foundOrNew ns n acc.1 k (allocated acc.1)))
    else syncerMap acc.1 !! k.
Proof.
  unfold addPort, lookupOrNew, foundOrNew. case_decide as Hk.
  - subst k. destruct (syncerMap acc.1 !! _) as [s|] eqn:E; simpl.
    + unfold restart. destruct (IsStopped s); simpl; [|done].
      by rewrite lookup_insert_eq.
    + by rewrite lookup_insert_eq.
  - destruct (syncerMap acc.1 !! getSyncerKey _ _ _ _) as [s|] eqn:E; simpl.
    + destruct (IsStopped s); simpl; [|done]. by rewrite lookup_insert_ne.
    + by rewrite !lookup_insert_ne.
Qed.

Lemma addPort_errors acc e :
  (addPort ns n acc e).2
  = acc.2 ++ option_list (startError (syncerMap acc.1 !! getSyncerKey ns n e.1 e.2)).
Proof.
  unfold addPort, lookupOrNew, startError.
  destruct (syncerMap acc.1 !! _) as [s|] eqn:E; simpl.
  - destruct (IsStopped s); simpl; [|by rewrite app_nil_r].
    destruct (Start s).2; simpl; [done | by rewrite app_nil_r].
  - by rewrite app_nil_r.
Qed.

Lemma addLoop_frame l acc :
  namer (foldl (addPort ns n) acc l).1 = namer acc.1 ∧
  svcPortMap (foldl (addPort ns n) acc l).1 = svcPortMap acc.1 ∧
  (allocated acc.1 ≤ allocated (foldl (addPort ns n) acc l).1)%nat.
Proof.
  revert acc. induction l as [|e l IH]; intros acc; simpl; [auto|].
  destruct (IH (addPort ns n acc e)) as (-> & -> & ?).
  destruct (addPort_frame acc e) as (-> & -> & ?). auto with lia.
Qed.

Lemma addLoop_lookup_other l acc k :
  k ∉ keysOf ns n l →
  syncerMap (foldl (addPort ns n) acc l).1 !! k = syncerMap acc.1 !! k.
Proof.
  revert acc. induction l as [|e l IH]; intros acc Hk; simpl; [done|].
  unfold keysOf in Hk. simpl in Hk. apply not_elem_of_cons in Hk as [Hne Hk].
  rewrite IH by done. rewrite addPort_lookup. by case_decide.
Qed.

(** An addressed key ends up registered: the syncer that was there, or a
    freshly numbered one, after one [restart]. *)
Lemma addLoop_lookup l acc k :
  NoDup (keysOf ns n l) → k ∈ keysOf ns n l →
  ∃ id, (allocated acc.1 ≤ id)%nat ∧
    (syncerMap acc.1 !! k = None →
       (id < allocated (foldl (addPort ns n) acc l).1)%nat) ∧
    syncerMap (foldl (addPort ns n) acc l).1 !! k
    = Some (restart (foundOrNew ns n acc.1 k id)).
Proof.
  revert acc. induction l as [|e l IH]; intros acc Hnd Hk; simpl.
  - by apply elem_of_nil in Hk.
  - unfold keysOf in Hnd, Hk. simpl in Hnd, Hk.
    apply NoDup_cons in Hnd as [Hnotin Hnd].
    apply elem_of_cons in Hk as [->|Hk].
    + exists (allocated acc.1). split; [done|]. split.
      * intros Hnone.
        destruct (addLoop_frame l (addPort ns n acc e)) as (_ & _ & Hle).
        eapply Nat.lt_le_trans; [|exact Hle].
        unfold addPort, lookupOrNew. rewrite Hnone. simpl. lia.
      * rewrite addLoop_lookup_other by done.
        rewrite addPort_lookup. by rewrite decide_True.
    + destruct (IH (addPort ns n acc e) Hnd Hk) as (id & Hid & Hlt & Hlk).
      assert (k ≠ getSyncerKey ns n e.1 e.2) as Hne by (intros ->; done).
      assert (syncerMap (addPort ns n acc e).1 !! k = syncerMap acc.1 !! k) as Hsame.
      { rewrite addPort_lookup. by rewrite decide_False. }
      destruct (addPort_frame acc e) as (Hnm & _ & Hle).
      exists id. split; [lia|]. split.
      * intros Hnone. apply Hlt. by rewrite Hsame.
      * rewrite Hlk. unfold foundOrNew. by rewrite Hsame, Hnm.
Qed.

Lemma addLoop_errors l acc :
  NoDup (keysOf ns n l) →
  (foldl (addPort ns n) acc l).2
  = acc.2 ++ omap (λ e, startError (syncerMap acc.1 !! getSyncerKey ns n e.1 e.2)) l.
Proof.
  revert acc. induction l as [|e l IH]; intros acc Hnd; simpl.
  - by rewrite app_nil_r.
  - unfold keysOf in Hnd. simpl in Hnd. apply NoDup_cons in Hnd as [Hnotin Hnd].
    rewrite IH by done. rewrite addPort_errors, <- app_assoc. f_equal.
    assert (omap (λ e0, startError (syncerMap (addPort ns n acc e).1
                                      !! getSyncerKey ns n e0.1 e0.2)) l
            = omap (λ e0, startError (syncerMap acc.1
                                      !! getSyncerKey ns n e0.1 e0.2)) l) as ->.
    { apply list_omap_ext, Forall_Forall2_diag, Forall_forall.
      intros e0 He0. rewrite addPort_lookup, decide_False; [done|].
      intros Heq. apply Hnotin. rewrite <- Heq.
      apply list_elem_of_fmap. by exists e0. }
    by destruct (startError _).
Qed.
End add_loop.

(** ** The loop of [Sync] *)

(** The loop of [Sync] only touches the keys it addresses, and there it
    pokes the syncers that are not stopped. *)
Lemma syncPort_frame ns n m e :
  namer (syncPort ns n m e) = namer m ∧
  svcPortMap (syncPort ns n m e) = svcPortMap m ∧
  allocated (syncPort ns n m e) = allocated m.
Proof.
  unfold syncPort. destruct (syncerMap m !! _) as [s|]; [|done].
  by destruct (IsStopped s).
Qed.

Lemma syncPort_lookup ns n m e k :
  syncerMap (syncPort ns n m e) !! k
  = if decide (k = getSyncerKey ns n e.1 e.2)
    then (λ s, if IsStopped s then s else Sync s) <$> syncerMap m !! k
    else syncerMap m !! k.
Proof.
  unfold syncPort. destruct (decide _) as [->|Hne].
  - destruct (syncerMap m !! _) as [s|] eqn:E; simpl; [|by rewrite E].
    destruct (IsStopped s); simpl; [by rewrite E|]. by rewrite lookup_insert_eq.
  - destruct (syncerMap m !! getSyncerKey _ _ _ _) as [s|]; simpl; [|done].
    destruct (IsStopped s); simpl; [done|]. by rewrite lookup_insert_ne.
Qed.

Lemma syncLoop_frame ns n l m :
  namer (foldl (syncPort ns n) m l) = namer m ∧
  svcPortMap (foldl (syncPort ns n) m l) = svcPortMap m ∧
  allocated (foldl (syncPort ns n) m l) = allocated m.
Proof.
  revert m. induction l as [|e l IH]; intros m; simpl; [done|].
  destruct (IH (syncPort ns n m e)) as (-> & -> & ->). apply syncPort_frame.
Qed.

Lemma syncLoop_lookup_other ns n l m k :
  k ∉ keysOf ns n l →
  syncerMap (foldl (syncPort ns n) m l) !! k = syncerMap m !! k.
Proof.
  revert m. induction l as [|e l IH]; intros m Hk; simpl; [done|].
  unfold keysOf in Hk. simpl in Hk. apply not_elem_of_cons in Hk as [Hne Hk].
  rewrite IH by done. rewrite syncPort_lookup. by rewrite decide_False.
Qed.

(** Every syncer after the loop of [Sync] is the one before it, possibly
    poked: the lifecycle flags and the identity do not move. *)
Lemma syncLoop_lookup ns n l m k :
  ∃ f, (∀ s, stopped (f s) = stopped s ∧ shuttingDown (f s) = shuttingDown s
             ∧ ident (f s) = ident s) ∧
    syncerMap (foldl (syncPort ns n) m l) !! k = f <$> syncerMap m !! k.
Proof.
  revert m. induction l as [|e l IH]; intros m; simpl.
  - exists id. split; [done|]. by rewrite option_fmap_id.
  - destruct (IH (syncPort ns n m e)) as (f & Hf & ->).
    rewrite syncPort_lookup. destruct (decide _).
    + exists (λ s, f (if IsStopped s then s else Sync s)). split.
      * intros s. destruct (Hf (if IsStopped s then s else Sync s)) as (-> & -> & ->).
        by destruct (IsStopped s).
      * by rewrite <- option_fmap_compose.
    + by exists f.
Qed.

(** ** [EnsureSyncers], key by key *)

Section ensure.
Context (m : syncerManager) (ns n : string) (P : PortNameMap).

Lemma EnsureSyncers_frame :
  namer (EnsureSyncers m ns n P).1 = namer m ∧
  svcPortMap (EnsureSyncers m ns n P).1
  = <[getServiceKey ns n := P]> (svcPortMap m) ∧
  (allocated m ≤ allocated (EnsureSyncers m ns n P).1)%nat.
Proof.
  unfold EnsureSyncers. simpl.
  set (m0 := setSvcPortMap m _). set (removes := map_to_list (Difference _ P)).
  set (adds := map_to_list (Difference P _)).
  destruct (addLoop_frame ns n adds (foldl (stopPort ns n) m0 removes, []))
    as (-> & -> & Hle). simpl in *.
  destruct (stopLoop_frame ns n removes m0) as (-> & -> & Heq).
  by rewrite Heq in Hle.
Qed.

Lemma EnsureSyncers_svcPortMap :
  svcPortMap (EnsureSyncers m ns n P).1
  = <[getServiceKey ns n := P]> (svcPortMap m).
Proof. apply EnsureSyncers_frame. Qed.


Lemma EnsureSyncers_allocated :
  (allocated m ≤ allocated (EnsureSyncers m ns n P).1)%nat.
Proof. apply EnsureSyncers_frame. Qed.

(** Keys whose entry is in both maps, or in neither, keep their syncer. *)
Lemma EnsureSyncers_untouched k :
  (entryOf ns n P k ↔ entryOf ns n (currentPorts m ns n) k) →
  syncerMap (EnsureSyncers m ns n P).1 !! k = syncerMap m !! k.
Proof.
  intros Hiff. unfold EnsureSyncers. simpl.
  rewrite addLoop_lookup_other.
  2:{ rewrite elem_of_keysOf, entryOf_Difference.
      unfold currentPorts in Hiff. tauto. }
  simpl. rewrite stopLoop_lookup. rewrite decide_False; [done|].
  rewrite elem_of_keysOf, entryOf_Difference.
  unfold currentPorts in Hiff. tauto.
Qed.

(** Keys whose entry left the map have had [Stop] called. *)
Lemma EnsureSyncers_removed k :
  entryOf ns n (currentPorts m ns n) k → ¬ entryOf ns n P k →
  syncerMap (EnsureSyncers m ns n P).1 !! k = Stop <$> syncerMap m !! k.
Proof.
  intros Hcur HP. unfold EnsureSyncers. simpl.
  rewrite addLoop_lookup_other.
  2:{ rewrite elem_of_keysOf, entryOf_Difference. tauto. }
  simpl. rewrite stopLoop_lookup. rewrite decide_True; [done|].
  by rewrite elem_of_keysOf, entryOf_Difference.
Qed.

(** Keys whose entry is new are registered: the syncer that was already
    there, or one constructed by this call, after one [restart]. *)
Lemma EnsureSyncers_added k :
  entryOf ns n P k → ¬ entryOf ns n (currentPorts m ns n) k →
  ∃ id, (allocated m ≤ id)%nat ∧
    (syncerMap m !! k = None →
       (id < allocated (EnsureSyncers m ns n P).1)%nat) ∧
    syncerMap (EnsureSyncers m ns n P).1 !! k
    = Some (restart (foundOrNew ns n m k id)).
Proof.
  intros HP Hcur. unfold EnsureSyncers. simpl.
  set (m0 := setSvcPortMap m _). set (removes := map_to_list (Difference _ P)).
  set (m1 := foldl (stopPort ns n) m0 removes).
  assert (syncerMap m1 !! k = syncerMap m !! k) as Hsame.
  { unfold m1, removes. rewrite stopLoop_lookup. rewrite decide_False; [done|].
    rewrite elem_of_keysOf, entryOf_Difference. tauto. }
  destruct (stopLoop_frame ns n removes m0) as (Hnm & _ & Hal).
  fold m1 in Hnm, Hal. simpl in Hnm, Hal.
  destruct (addLoop_lookup ns n
    (map_to_list (Difference P (default ∅ (svcPortMap m !! getServiceKey ns n))))
    (m1, []) k) as (id & Hid & Hlt & Hlk).
  { apply NoDup_keysOf. }
  { by rewrite elem_of_keysOf, entryOf_Difference. }
  simpl in *. exists id. split; [lia|]. split.
  - intros Hnone. apply Hlt. by rewrite Hsame.
  - rewrite Hlk. unfold foundOrNew. by rewrite Hsame, Hnm.
Qed.

(** The returned error aggregates the [Start] errors of the added keys, in
    the order of the loop. *)
Lemma EnsureSyncers_error :
  (EnsureSyncers m ns n P).2
  = NewAggregate
      (omap (λ e, startError (syncerMap m !! getSyncerKey ns n e.1 e.2))
         (map_to_list (Difference P (currentPorts m ns n)))).
Proof.
  unfold EnsureSyncers. simpl. f_equal.
  rewrite addLoop_errors by apply NoDup_keysOf. simpl.
  apply list_omap_ext, Forall_Forall2_diag, Forall_forall.
  intros [p tp] Hin. simpl. f_equal.
  rewrite stopLoop_lookup. rewrite decide_False; [done|].
  apply elem_of_map_to_list, lookup_Difference in Hin as [HP Hcur].
  rewrite elem_of_keysOf, entryOf_Difference. unfold entryOf. simpl.
  unfold currentPorts. naive_solver.
Qed.
End ensure.

Arguments EnsureSyncers : simpl never.

(** ** Garbage collection of syncers *)

Lemma garbageCollectSyncer_frame m key :
  namer (garbageCollectSyncer m key) = namer m ∧
  svcPortMap (garbageCollectSyncer m key) = svcPortMap m ∧
  allocated (garbageCollectSyncer m key) = allocated m.
Proof.
  unfold garbageCollectSyncer. destruct (syncerMap m !! key) as [s|]; [|done].
  by destruct (IsStopped s && negb (IsShuttingDown s)).
Qed.

Lemma garbageCollectSyncer_lookup m key k :
  syncerMap (garbageCollectSyncer m key) !! k
  = if decide (k = key)
    then s ← syncerMap m !! k;
         (if IsStopped s && negb (IsShuttingDown s) then None else Some s)
    else syncerMap m !! k.
Proof.
  unfold garbageCollectSyncer. destruct (decide _) as [->|Hne].
  - destruct (syncerMap m !! key) as [s|] eqn:E; simpl; [|by rewrite E].
    destruct (IsStopped s && negb (IsShuttingDown s)); simpl; [|done].
    by rewrite lookup_delete_eq.
  - destruct (syncerMap m !! key) as [s|] eqn:E; simpl; [|done].
    destruct (IsStopped s && negb (IsShuttingDown s)); simpl; [|done].
    by rewrite lookup_delete_ne.
Qed.

Lemma collectLoop_frame l m :
  namer (foldl garbageCollectSyncer m l) = namer m ∧
  svcPortMap (foldl garbageCollectSyncer m l) = svcPortMap m ∧
  allocated (foldl garbageCollectSyncer m l) = allocated m.
Proof.
  revert m. induction l as [|e l IH]; intros m; simpl; [done|].
  destruct (IH (garbageCollectSyncer m e)) as (-> & -> & ->).
  apply garbageCollectSyncer_frame.
Qed.

Lemma collectLoop_lookup_Some l m k s :
  syncerMap (foldl garbageCollectSyncer m l) !! k = Some s →
  syncerMap m !! k = Some s.
Proof.
  revert m. induction l as [|e l IH]; intros m; simpl; [done|].
  intros H%IH. rewrite garbageCollectSyncer_lookup in H.
  destruct (decide _); [|done].
  destruct (syncerMap m !! k) as [s0|]; simpl in H; [|done].
  by destruct (IsStopped s0 && negb (IsShuttingDown s0)).
Qed.

(** ** The invariant of the reachable states *)

Lemma entryOf_service ns n P k :
  entryOf ns n P k → namespace k = ns ∧ name k = n.
Proof. intros [Hs _]. unfold serviceOf, getServiceKey in Hs. by simplify_eq. Qed.

Lemma entryOf_self ns n P k :
  entryOf ns n P k → entryOf (namespace k) (name k) P k.
Proof. intros H. by destruct (entryOf_service _ _ _ _ H) as [-> ->]. Qed.

Lemma wf_new nm : wf (newSyncerManager nm).
Proof. split; intros k s H; simpl in H; by rewrite lookup_empty in H. Qed.

Lemma wf_EnsureSyncers m ns n P : wf m → wf (EnsureSyncers m ns n P).1.
Proof.
  intros [Hdecl Hid]. split.
  - intros k s Hk Hrun.
    unfold currentPorts. rewrite EnsureSyncers_svcPortMap.
    destruct (decide (entryOf ns n P k)) as [HP|HP].
    { destruct (entryOf_service _ _ _ _ HP) as [-> ->].
      by rewrite lookup_insert_eq. }
    destruct (decide (entryOf ns n (currentPorts m ns n) k)) as [Hc|Hc].
    { rewrite EnsureSyncers_removed in Hk by done.
      destruct (syncerMap m !! k) as [s0|]; simplify_eq/=.
      by rewrite Stop_IsStopped in Hrun. }
    rewrite EnsureSyncers_untouched in Hk by tauto.
    specialize (Hdecl k s Hk Hrun).
    destruct (decide (getServiceKey ns n = getServiceKey (namespace k) (name k)))
      as [Heq|Hne].
    + unfold getServiceKey in Heq. simplify_eq. done.
    + by rewrite lookup_insert_ne.
  - intros k s Hk. pose proof (EnsureSyncers_allocated m ns n P) as Hle.
    destruct (decide (entryOf ns n P k)) as [HP|HP];
      destruct (decide (entryOf ns n (currentPorts m ns n) k)) as [Hc|Hc].
    + rewrite EnsureSyncers_untouched in Hk by tauto.
      specialize (Hid k s Hk). lia.
    + destruct (EnsureSyncers_added m ns n P k HP Hc) as (id & Hge & Hlt & Hlk).
      rewrite Hlk in Hk. simplify_eq. rewrite restart_ident.
      unfold foundOrNew. destruct (syncerMap m !! k) as [s0|] eqn:E.
      * specialize (Hid k s0 E). change (default _ (Some s0)) with s0. lia.
      * by apply Hlt.
    + rewrite EnsureSyncers_removed in Hk by done.
      destruct (syncerMap m !! k) as [s0|] eqn:E; simplify_eq/=.
      rewrite Stop_ident. specialize (Hid k s0 E). lia.
    + rewrite EnsureSyncers_untouched in Hk by tauto.
      specialize (Hid k s Hk). lia.
Qed.

(** ** [StopSyncer] and [Sync], key by key *)

(** [StopSyncer], key by key. *)
Lemma StopSyncer_svcPortMap m ns n :
  svcPortMap (StopSyncer m ns n) = delete (getServiceKey ns n) (svcPortMap m).
Proof.
  unfold StopSyncer.
  destruct (svcPortMap m !! getServiceKey ns n) as [ports|] eqn:E; simpl.
  - by destruct (stopLoop_frame ns n (map_to_list ports) m) as (_ & -> & _).
  - by rewrite delete_id.
Qed.

Lemma StopSyncer_lookup m ns n k :
  syncerMap (StopSyncer m ns n) !! k
  = if decide (entryOf ns n (currentPorts m ns n) k)
    then Stop <$> syncerMap m !! k else syncerMap m !! k.
Proof.
  unfold StopSyncer, currentPorts.
  destruct (svcPortMap m !! getServiceKey ns n) as [ports|] eqn:E; simpl.
  - rewrite stopLoop_lookup.
    destruct (decide (k ∈ _)) as [H|H], (decide (entryOf _ _ _ _)) as [H'|H'];
      try done; by rewrite elem_of_keysOf in H.
  - rewrite decide_False; [done|]. intros [_ H]. by rewrite lookup_empty in H.
Qed.

Lemma StopSyncer_allocated m ns n : allocated (StopSyncer m ns n) = allocated m.
Proof.
  unfold StopSyncer.
  destruct (svcPortMap m !! getServiceKey ns n) as [ports|]; simpl; [|done].
  by destruct (stopLoop_frame ns n (map_to_list ports) m) as (_ & _ & ->).
Qed.

(** [Sync], key by key. *)
Lemma SyncService_frame m ns n :
  namer (SyncService m ns n) = namer m ∧
  svcPortMap (SyncService m ns n) = svcPortMap m ∧
  allocated (SyncService m ns n) = allocated m.
Proof.
  unfold SyncService.
  destruct (svcPortMap m !! getServiceKey ns n) as [ports|]; [|done].
  apply syncLoop_frame.
Qed.

Lemma SyncService_lookup_other m ns n k :
  ¬ entryOf ns n (currentPorts m ns n) k →
  syncerMap (SyncService m ns n) !! k = syncerMap m !! k.
Proof.
  unfold SyncService, currentPorts. intros H.
  destruct (svcPortMap m !! getServiceKey ns n) as [ports|]; [|done].
  apply syncLoop_lookup_other. by rewrite elem_of_keysOf.
Qed.

Lemma SyncService_lookup m ns n k :
  ∃ f, (∀ s, stopped (f s) = stopped s ∧ shuttingDown (f s) = shuttingDown s
             ∧ ident (f s) = ident s) ∧
    syncerMap (SyncService m ns n) !! k = f <$> syncerMap m !! k.
Proof.
  unfold SyncService.
  destruct (svcPortMap m !! getServiceKey ns n) as [ports|].
  - apply syncLoop_lookup.
  - exists id. split; [done|]. by rewrite option_fmap_id.
Qed.

Lemma wf_StopSyncer m ns n : wf m → wf (StopSyncer m ns n).
Proof.
  intros [Hdecl Hid]. split.
  - intros k s Hk Hrun. rewrite StopSyncer_lookup in Hk.
    destruct (decide _) as [Hc|Hc].
    { destruct (syncerMap m !! k) as [s0|]; simplify_eq/=.
      by rewrite Stop_IsStopped in Hrun. }
    specialize (Hdecl k s Hk Hrun).
    unfold currentPorts in *. rewrite StopSyncer_svcPortMap.
    destruct (decide (getServiceKey ns n = getServiceKey (namespace k) (name k)))
      as [Heq|Hne].
    + unfold getServiceKey in Heq. simplify_eq. done.
    + by rewrite lookup_delete_ne.
  - intros k s Hk. rewrite StopSyncer_allocated. rewrite StopSyncer_lookup in Hk.
    destruct (decide _); [|by eapply Hid].
    destruct (syncerMap m !! k) as [s0|] eqn:E; simplify_eq/=.
    rewrite Stop_ident. by eapply Hid.
Qed.

Lemma wf_SyncService m ns n : wf m → wf (SyncService m ns n).
Proof.
  intros [Hdecl Hid].
  destruct (SyncService_frame m ns n) as (_ & Hsvc & Hal).
  split.
  - intros k s Hk Hrun. unfold currentPorts. rewrite Hsvc.
    destruct (SyncService_lookup m ns n k) as (f & Hf & Hlk).
    rewrite Hlk in Hk. destruct (syncerMap m !! k) as [s0|] eqn:E; simplify_eq/=.
    apply (Hdecl k s0 E). unfold IsStopped in *.
    by destruct (Hf s0) as (<- & _ & _).
  - intros k s Hk. rewrite Hal.
    destruct (SyncService_lookup m ns n k) as (f & Hf & Hlk).
    rewrite Hlk in Hk. destruct (syncerMap m !! k) as [s0|] eqn:E; simplify_eq/=.
    destruct (Hf s0) as (_ & _ & ->). by eapply Hid.
Qed.

Lemma wf_ShutDown m : wf m → wf (ShutDown m).
Proof.
  intros [Hdecl Hid]. split.
  - intros k s Hk Hrun. simpl in Hk. rewrite lookup_fmap in Hk.
    destruct (syncerMap m !! k) as [s0|]; simplify_eq/=.
    by rewrite Stop_IsStopped in Hrun.
  - intros k s Hk. simpl in *. rewrite lookup_fmap in Hk.
    destruct (syncerMap m !! k) as [s0|] eqn:E; simplify_eq/=.
    rewrite Stop_ident. by eapply Hid.
Qed.

Lemma wf_collectSyncers m : wf m → wf (collectSyncers m).
Proof.
  intros [Hdecl Hid]. unfold collectSyncers.
  destruct (collectLoop_frame (getAllStoppedSyncerKeys m) m) as (_ & Hsvc & Hal).
  split.
  - intros k s Hk%collectLoop_lookup_Some Hrun.
    unfold currentPorts. rewrite Hsvc. by eapply Hdecl.
  - intros k s Hk%collectLoop_lookup_Some. rewrite Hal. by eapply Hid.
Qed.

Lemma wf_workerExit m k : wf m → wf (workerExit m k).
Proof.
  intros [Hdecl Hid]. split.
  - intros k' s Hk Hrun. simpl in Hk. rewrite lookup_alter in Hk.
    change (currentPorts (workerExit m k) (namespace k') (name k'))
      with (currentPorts m (namespace k') (name k')).
    destruct (decide (k = k')) as [->|]; [|by eapply Hdecl].
    destruct (syncerMap m !! k') as [s0|] eqn:E; simplify_eq/=.
    apply (Hdecl k' s0 E). unfold loopExit, IsStopped in *.
    destruct (stopped s0) eqn:E1, (shuttingDown s0) eqn:E2; simpl in *; congruence.
  - intros k' s Hk. simpl in *. rewrite lookup_alter in Hk.
    destruct (decide (k = k')) as [->|]; [|by eapply Hid].
    destruct (syncerMap m !! k') as [s0|] eqn:E; simplify_eq/=.
    specialize (Hid k' s0 E). unfold loopExit.
    by destruct (stopped s0 && shuttingDown s0).
Qed.

Create HintDb manager.

#[local] Hint Resolve wf_new wf_EnsureSyncers wf_StopSyncer wf_SyncService
  wf_ShutDown wf_collectSyncers wf_workerExit : manager.


(** * Properties of garbage collection *)

(** ** The cloud operations *)

Lemma findNEG_Some c name zone g :
  findNEG c name zone = Some g → inCloud c name zone.
Proof.
  unfold findNEG, inCloud. destruct (negs c !! zone) as [l|]; simpl; [|done].
  intros H. apply head_Some_elem_of in H.
  apply list_elem_of_filter in H as [Hn Hin].
  exists l, g. split_and!; [done..|].
  unfold hasName in Hn. by apply bool_decide_eq_true in Hn.
Qed.

Lemma findNEG_None c name zone :
  findNEG c name zone = None → ¬ inCloud c name zone.
Proof.
  unfold findNEG, inCloud. intros H (l & g & Hl & Hin & Hname).
  rewrite Hl in H. simpl in H. apply head_None in H.
  assert (g ∈ filter (λ g, hasName name g = true) l) as Hf.
  { apply list_elem_of_filter. split; [|done].
    unfold hasName. by apply bool_decide_eq_true. }
  rewrite H in Hf. by apply elem_of_nil in Hf.
Qed.

Lemma shrinks_refl c : shrinks c c.
Proof. by split_and!. Qed.

Lemma shrinks_trans c1 c2 c3 : shrinks c1 c2 → shrinks c2 c3 → shrinks c1 c3.
Proof.
  intros (Hg1 & Hd1 & H1) (Hg2 & Hd2 & H2).
  split_and!; [congruence..|]. auto.
Qed.

Lemma shrinks_logCall c call : shrinks c (logCall c call).
Proof. by split_and!. Qed.

Lemma inCloud_alter_filter c name zone n z :
  inCloud (setNegs c (alter (filter (λ g, hasName name g = false)) zone)) n z →
  inCloud c n z ∧ ¬ (n = name ∧ z = zone).
Proof.
  unfold inCloud. simpl. intros (l & g & Hl & Hin & Hname).
  rewrite lookup_alter in Hl. destruct (decide (zone = z)) as [->|Hne].
  - destruct (negs c !! z) as [l0|] eqn:E; simplify_eq/=.
    apply list_elem_of_filter in Hin as [Hn Hin]. split.
    + by exists l0, g.
    + intros [Heq _]. unfold hasName in Hn.
      apply bool_decide_eq_false in Hn. congruence.
  - split; [by exists l, g | naive_solver].
Qed.

Section ensure_delete.
Context (c : cloudState) (name zone : string).

Lemma ensureDelete_shrinks :
  shrinks c (ensureDeleteNetworkEndpointGroup c name zone).1.
Proof.
  unfold ensureDeleteNetworkEndpointGroup, GetNetworkEndpointGroup,
    DeleteNetworkEndpointGroup. simpl.
  destruct (getFault c name zone); [apply shrinks_logCall|].
  destruct (findNEG _ name zone) eqn:E; [|apply shrinks_logCall]. simpl.
  destruct (deleteFault c name zone).
  { eapply shrinks_trans; apply shrinks_logCall. }
  change (findNEG (logCall (logCall c (CallGet name zone)) (CallDelete name zone))
            name zone) with (findNEG (logCall c (CallGet name zone)) name zone).
  rewrite E. simpl. split_and!; [done..|].
  intros x y H. by apply inCloud_alter_filter in H as [H _].
Qed.

(** When the get is not refused, a successful call leaves no NEG of that
    name in the zone. *)
Lemma ensureDelete_gone :
  getFault c name zone = None →
  (ensureDeleteNetworkEndpointGroup c name zone).2 = None →
  ¬ inCloud (ensureDeleteNetworkEndpointGroup c name zone).1 name zone.
Proof.
  unfold ensureDeleteNetworkEndpointGroup, GetNetworkEndpointGroup,
    DeleteNetworkEndpointGroup. simpl. intros ->.
  destruct (findNEG _ name zone) eqn:E; simpl.
  - destruct (deleteFault c name zone); [done|].
    change (findNEG (logCall (logCall c (CallGet name zone)) (CallDelete name zone))
              name zone) with (findNEG (logCall c (CallGet name zone)) name zone).
    rewrite E. simpl. intros _ H.
    apply inCloud_alter_filter in H as [_ H]. by apply H.
  - intros _. by apply findNEG_None in E.
Qed.

(** An error of the call is the error of the delete, the last call made. *)
Lemma ensureDelete_error err :
  (ensureDeleteNetworkEndpointGroup c name zone).2 = Some err →
  ∃ e, err = ErrCloud e ∧
    calls (ensureDeleteNetworkEndpointGroup c name zone).1
    = calls c ++ [CallGet name zone; CallDelete name zone].
Proof.
  unfold ensureDeleteNetworkEndpointGroup, GetNetworkEndpointGroup,
    DeleteNetworkEndpointGroup. simpl.
  destruct (getFault c name zone); [done|].
  destruct (findNEG _ name zone) eqn:E; [|done]. simpl.
  destruct (deleteFault c name zone) as [e|].
  - simpl. intros [= <-]. exists e. by rewrite <- app_assoc.
  - change (findNEG (logCall (logCall c (CallGet name zone)) (CallDelete name zone))
              name zone) with (findNEG (logCall c (CallGet name zone)) name zone).
    by rewrite E.
Qed.
(** On a cloud that refuses neither the get nor the delete the call
    succeeds: the delete is only made for a NEG the get has just found, so
    it does not report [NotFound]. *)
Lemma ensureDelete_no_fault :
  getFault c name zone = None → deleteFault c name zone = None →
  (ensureDeleteNetworkEndpointGroup c name zone).2 = None.
Proof.
  unfold ensureDeleteNetworkEndpointGroup, GetNetworkEndpointGroup,
    DeleteNetworkEndpointGroup. simpl. intros -> Hdel.
  destruct (findNEG _ name zone) eqn:E; [|done]. simpl. rewrite Hdel.
  change (findNEG (logCall (logCall c (CallGet name zone)) (CallDelete name zone))
            name zone) with (findNEG (logCall c (CallGet name zone)) name zone).
  by rewrite E.
Qed.
End ensure_delete.

Lemma inCloud_alter_filter_keep c name zone n z :
  inCloud c n z → ¬ (n = name ∧ z = zone) →
  inCloud (setNegs c (alter (filter (λ g, hasName name g = false)) zone)) n z.
Proof.
  unfold inCloud. simpl. intros (l & g & Hl & Hin & Hname) Hne.
  destruct (decide (zone = z)) as [->|Hz].
  - exists (filter (λ g, hasName name g = false) l), g. split_and!; [| |done].
    + rewrite lookup_alter, decide_True by done. by rewrite Hl.
    + apply list_elem_of_filter. split; [|done]. unfold hasName.
      apply bool_decide_eq_false. intros Heq. apply Hne. split; congruence.
  - exists l, g. split_and!; [|done..]. by rewrite lookup_alter_ne.
Qed.

Lemma ensureDelete_preserves c name zone n z :
  ¬ (n = name ∧ z = zone) → inCloud c n z →
  inCloud (ensureDeleteNetworkEndpointGroup c name zone).1 n z.
Proof.
  intros Hne Hin.
  unfold ensureDeleteNetworkEndpointGroup, GetNetworkEndpointGroup,
    DeleteNetworkEndpointGroup. simpl.
  destruct (getFault c name zone); [done|].
  destruct (findNEG _ name zone) eqn:E; [|done]. simpl.
  destruct (deleteFault c name zone); [done|].
  change (findNEG (logCall (logCall c (CallGet name zone)) (CallDelete name zone))
            name zone) with (findNEG (logCall c (CallGet name zone)) name zone).
  rewrite E. simpl. by apply inCloud_alter_filter_keep.
Qed.

(** ** The deletion loops *)

Lemma deleteNames_shrinks names c zone :
  shrinks c (deleteNames c zone names).1.
Proof.
  revert c. induction names as [|name names IH]; intros c; simpl.
  - apply shrinks_refl.
  - pose proof (ensureDelete_shrinks c name zone) as Hs.
    destruct (ensureDeleteNetworkEndpointGroup c name zone) as [c1 [err|]];
      simpl in *; [done|].
    eapply shrinks_trans; [exact Hs | apply IH].
Qed.

Lemma deleteNames_gone names c zone :
  (∀ name, getFault c name zone = None) →
  (deleteNames c zone names).2 = None →
  ∀ name, name ∈ names → ¬ inCloud (deleteNames c zone names).1 name zone.
Proof.
  revert c. induction names as [|n names IH]; intros c Hget Hok name Hin; simpl in *.
  - by apply elem_of_nil in Hin.
  - pose proof (ensureDelete_shrinks c n zone) as Hs.
    pose proof (ensureDelete_gone c n zone (Hget n)) as Hgone.
    destruct (ensureDeleteNetworkEndpointGroup c n zone) as [c1 [err|]];
      simpl in *; [done|].
    assert (∀ name, getFault c1 name zone = None) as Hget1.
    { intros x. destruct Hs as (-> & _). apply Hget. }
    apply elem_of_cons in Hin as [->|Hin]; [|by apply IH].
    intros H. apply Hgone; [done|].
    by apply (deleteNames_shrinks names c1 zone).
Qed.

Lemma deleteNames_error names c zone err :
  (deleteNames c zone names).2 = Some err →
  ∃ name e, name ∈ names ∧
    err = Errorf "failed to delete NEG %q in %q: %v" [name; zone] (ErrCloud e) ∧
    last (calls (deleteNames c zone names).1) = Some (CallDelete name zone).
Proof.
  revert c. induction names as [|n names IH]; intros c; simpl; [done|].
  pose proof (ensureDelete_error c n zone) as He.
  destruct (ensureDeleteNetworkEndpointGroup c n zone) as [c1 [err1|]]; simpl in *.
  - intros [= <-]. destruct (He err1 eq_refl) as (e & -> & Hc).
    exists n, e. split_and!; [by left | done |].
    rewrite Hc. change [CallGet n zone; CallDelete n zone]
      with ([CallGet n zone] ++ [CallDelete n zone]).
    by rewrite app_assoc, last_snoc.
  - intros H. destruct (IH c1 H) as (name & e & Hin & -> & Hl).
    exists name, e. split_and!; [by right | done..].
Qed.

Lemma deleteZones_shrinks zones names c :
  shrinks c (deleteZones c zones names).1.
Proof.
  revert c. induction zones as [|zone zones IH]; intros c; simpl.
  - apply shrinks_refl.
  - pose proof (deleteNames_shrinks names c zone) as Hs.
    destruct (deleteNames c zone names) as [c1 [err|]]; simpl in *; [done|].
    eapply shrinks_trans; [exact Hs | apply IH].
Qed.

Lemma deleteZones_gone zones names c :
  (∀ name zone, getFault c name zone = None) →
  (deleteZones c zones names).2 = None →
  ∀ name zone, name ∈ names → zone ∈ zones →
    ¬ inCloud (deleteZones c zones names).1 name zone.
Proof.
  revert c. induction zones as [|z zones IH]; intros c Hget Hok name zone Hn Hz;
    simpl in *.
  - by apply elem_of_nil in Hz.
  - pose proof (deleteNames_shrinks names c z) as Hs.
    pose proof (deleteNames_gone names c z (λ x, Hget x z)) as Hgone.
    destruct (deleteNames c z names) as [c1 [err|]]; simpl in *; [done|].
    assert (∀ name zone, getFault c1 name zone = None) as Hget1.
    { intros x y. destruct Hs as (-> & _). apply Hget. }
    apply elem_of_cons in Hz as [->|Hz]; [|by apply IH].
    intros H. apply (Hgone eq_refl name Hn).
    by apply (deleteZones_shrinks zones names c1).
Qed.

Lemma deleteZones_error zones names c err :
  (deleteZones c zones names).2 = Some err →
  ∃ name zone e, name ∈ names ∧ zone ∈ zones ∧
    err = Errorf "failed to delete NEG %q in %q: %v" [name; zone] (ErrCloud e) ∧
    last (calls (deleteZones c zones names).1) = Some (CallDelete name zone).
Proof.
  revert c. induction zones as [|z zones IH]; intros c; simpl; [done|].
  pose proof (deleteNames_error names c z) as He.
  destruct (deleteNames c z names) as [c1 [err1|]]; simpl in *.
  - intros [= <-]. destruct (He err1 eq_refl) as (name & e & Hin & -> & Hl).
    exists name, z, e. split_and!; [done | by left | done..].
  - intros H. destruct (IH c1 H) as (name & zone & e & Hn & Hz & -> & Hl).
    exists name, zone, e. split_and!; [done | by right | done..].
Qed.

(** ** The names [garbageCollectNEG] deletes *)

Lemma insertNEGNames_mono nm l acc n :
  n ∈ acc → n ∈ insertNEGNames nm acc l.
Proof.
  unfold insertNEGNames. revert acc.
  induction l as [|g l IH]; intros acc H; simpl; [done|].
  apply IH. destruct (IsNEG nm (Name g)); set_solver.
Qed.

Lemma insertNEGNames_elem nm l acc g :
  g ∈ l → IsNEG nm (Name g) = true → Name g ∈ insertNEGNames nm acc l.
Proof.
  revert acc. induction l as [|g0 l IH]; intros acc Hin Hneg.
  - by apply elem_of_nil in Hin.
  - apply elem_of_cons in Hin as [<-|Hin].
    + unfold insertNEGNames. simpl. rewrite Hneg.
      apply (insertNEGNames_mono nm l). set_solver.
    + unfold insertNEGNames. simpl. by apply IH.
Qed.

Lemma collectNEGNames_elem nm (zl : gmap string (list NetworkEndpointGroup)) z l g :
  zl !! z = Some l → g ∈ l → IsNEG nm (Name g) = true →
  Name g ∈ collectNEGNames nm zl.
Proof.
  intros Hz Hg Hneg. unfold collectNEGNames.
  apply elem_of_map_to_list in Hz. revert Hz.
  generalize (map_to_list zl). generalize (∅ : gset string).
  intros acc L. revert acc. induction L as [|e L IH]; intros acc Hin; simpl.
  - by apply elem_of_nil in Hin.
  - apply elem_of_cons in Hin as [<-|Hin]; [|by apply IH].
    simpl. assert (Name g ∈ insertNEGNames nm acc l) as H0
      by by apply insertNEGNames_elem.
    revert H0. generalize (insertNEGNames nm acc l). clear.
    induction L as [|e L IH]; intros acc H; simpl; [done|].
    apply IH. by apply insertNEGNames_mono.
Qed.

(** A name that the second loop drops is the name of a declared port. *)
Lemma deleteServiceNames_dropped nm e acc n :
  n ∈ acc →
  n ∈ deleteServiceNames nm acc e ∨
  ∃ p tp, e.2 !! p = Some tp ∧ n = NEG nm (svc_namespace e.1) (svc_name e.1) p.
Proof.
  unfold deleteServiceNames.
  assert (∀ l (acc : gset string), n ∈ acc →
    n ∈ foldl (λ acc (sp : Z * string),
                 acc ∖ {[NEG nm (svc_namespace e.1) (svc_name e.1) sp.1]}) acc l ∨
    ∃ sp, sp ∈ l ∧ n = NEG nm (svc_namespace e.1) (svc_name e.1) sp.1) as H.
  { induction l as [|sp l IH]; intros acc0 Hin; simpl; [by left|].
    destruct (decide (n = NEG nm (svc_namespace e.1) (svc_name e.1) sp.1))
      as [Heq|Hne].
    - right. exists sp. split; [by left | done].
    - destruct (IH (acc0 ∖ {[NEG nm (svc_namespace e.1) (svc_name e.1) sp.1]}))
        as [?|(sp' & ? & ?)]; [set_solver | by left |].
      right. exists sp'. split; [by right | done]. }
  intros Hin. destruct (H (map_to_list e.2) acc Hin) as [?|([p tp] & Hsp & ->)];
    [by left|].
  right. exists p, tp. split; [|done]. by apply elem_of_map_to_list.
Qed.

Lemma deleteLiveNames_dropped m acc n :
  n ∈ acc → n ∉ deleteLiveNames m acc → live m n.
Proof.
  unfold deleteLiveNames, live. intros Hin Hnot.
  assert (∀ L (acc : gset string), n ∈ acc →
    n ∈ foldl (deleteServiceNames (namer m)) acc L ∨
    ∃ e p tp, e ∈ L ∧ e.2 !! p = Some tp ∧
      n = NEG (namer m) (svc_namespace e.1) (svc_name e.1) p) as H.
  { induction L as [|e L IH]; intros acc0 Hin0; simpl; [by left|].
    destruct (deleteServiceNames_dropped (namer m) e acc0 n Hin0)
      as [H1|(p & tp & ? & ?)].
    - destruct (IH _ H1) as [?|(e' & p & tp & ? & ? & ?)]; [by left|].
      right. exists e', p, tp. split_and!; [by right | done..].
    - right. exists e, p, tp. split_and!; [by left | done..]. }
  destruct (H (map_to_list (svcPortMap m)) acc Hin)
    as [?|([key P] & p & tp & He & HP & ->)]; [done|].
  exists key, P, p, tp. split_and!; [|done..]. by apply elem_of_map_to_list.
Qed.

Lemma elem_of_List (s : gset string) n : n ∈ List s ↔ n ∈ s.
Proof. unfold List. by rewrite merge_sort_Permutation, elem_of_elements. Qed.

Lemma collectSyncers_frame m :
  namer (collectSyncers m) = namer m ∧
  svcPortMap (collectSyncers m) = svcPortMap m ∧
  allocated (collectSyncers m) = allocated m.
Proof. apply collectLoop_frame. Qed.

(** When no get is refused, a [garbageCollectNEG] that returns no error
    leaves only NEGs that are foreign to the namer or live. *)
Lemma garbageCollectNEG_orphans m c name zone :
  (∀ name zone, getFault c name zone = None) →
  (garbageCollectNEG m c).2 = None →
  inCloud (garbageCollectNEG m c).1 name zone →
  IsNEG (namer m) name = true →
  live m name.
Proof.
  unfold garbageCollectNEG, AggregatedListNetworkEndpointGroup. simpl.
  intros Hget. destruct (listFault c); [done|].
  set (c1 := logCall c CallAggregatedList).
  set (names := deleteLiveNames m (collectNEGNames (namer m) (negs c))).
  intros Hok Hin Hneg.
  pose proof (deleteZones_shrinks (map_to_list (negs c)).*1 (List names) c1)
    as (_ & _ & Hsub).
  destruct (Hsub _ _ Hin) as (l & g & Hl & Hg & Hname). simpl in Hl.
  assert (name ∈ collectNEGNames (namer m) (negs c)) as Hcol.
  { rewrite <- Hname. eapply collectNEGNames_elem; [done..|]. by rewrite Hname. }
  destruct (decide (name ∈ names)) as [Hn|Hn].
  - exfalso.
    eapply (deleteZones_gone (map_to_list (negs c)).*1 (List names) c1);
      [done | done | | | exact Hin].
    + by apply elem_of_List.
    + apply list_elem_of_fmap. exists (zone, l). split; [done|].
      by apply elem_of_map_to_list.
  - by eapply deleteLiveNames_dropped.
Qed.

(** * The claims about [EnsureSyncers], [StopSyncer] and [Sync] *)

















(** C7 on [default/foo]: both ports are taken out of the annotation and put
    back while their workers are still shutting down. Both [Start] calls
    fail and the call returns the composite of the two errors. *)
Example EnsureSyncers_two_start_errors :
  (EnsureSyncers (EnsureSyncers managerStarted "default" "foo" ∅).1
     "default" "foo" fooPorts).2
  = Some (Aggregate [ErrShuttingDown key443;
                     ErrShuttingDown (getSyncerKey "default" "foo" 80 "http")]).
Proof. vm_compute. reflexivity. Qed.

(** C10. For two distinct services, [EnsureSyncers], [StopSyncer] and [Sync]
    on the first leave the stored port map of the second and the syncer of
    every key of the second unchanged. *)
Theorem C10_other_service_untouched m ns n ns' n' P :
  getServiceKey ns n ≠ getServiceKey ns' n' →
  (svcPortMap (EnsureSyncers m ns n P).1 !! getServiceKey ns' n'
   = svcPortMap m !! getServiceKey ns' n'
   ∧ ∀ k, serviceOf k = getServiceKey ns' n' →
       syncerMap (EnsureSyncers m ns n P).1 !! k = syncerMap m !! k)
  ∧ (svcPortMap (StopSyncer m ns n) !! getServiceKey ns' n'
     = svcPortMap m !! getServiceKey ns' n'
     ∧ ∀ k, serviceOf k = getServiceKey ns' n' →
         syncerMap (StopSyncer m ns n) !! k = syncerMap m !! k)
  ∧ (svcPortMap (SyncService m ns n) !! getServiceKey ns' n'
     = svcPortMap m !! getServiceKey ns' n'
     ∧ ∀ k, serviceOf k = getServiceKey ns' n' →
         syncerMap (SyncService m ns n) !! k = syncerMap m !! k).
Proof.
  intros Hne.
  assert (∀ Q k, serviceOf k = getServiceKey ns' n' → ¬ entryOf ns n Q k) as Hno.
  { intros Q k Hk [Hsvc _]. congruence. }
  split_and!.
  - rewrite EnsureSyncers_svcPortMap. by apply lookup_insert_ne.
  - intros k Hk. apply EnsureSyncers_untouched.
    split; intros H; exfalso; by eapply Hno.
  - rewrite StopSyncer_svcPortMap. by apply lookup_delete_ne.
  - intros k Hk. rewrite StopSyncer_lookup. rewrite decide_False; [done|].
    by apply Hno.
  - by destruct (SyncService_frame m ns n) as (_ & -> & _).
  - intros k Hk. apply SyncService_lookup_other. by apply Hno.
Qed.

(** C10 on [default/foo] and [default/bar]. *)
Lemma C10_other_service_untouched_witness :
  svcPortMap (StopSyncer managerStarted "default" "bar")
    !! getServiceKey "default" "foo"
  = svcPortMap managerStarted !! getServiceKey "default" "foo"
  ∧ syncerMap (StopSyncer managerStarted "default" "bar") !! key443
    = syncerMap managerStarted !! key443.
Proof.
  destruct (C10_other_service_untouched managerStarted
              "default" "bar" "default" "foo" ∅)
    as (_ & [H1 H2] & _); [done|].
  split; [exact H1 | by apply H2].
Defined.

(** * The claims about [GC] *)

Lemma live_new nm name : ¬ live (newSyncerManager nm) name.
Proof.
  intros (key & P & p & tp & H & _). simpl in H. by rewrite lookup_empty in H.
Qed.

Lemma inCloud_orphan_a getF deleteF c :
  negs c = negs (orphanCloud getF deleteF) → inCloud c "k8s1-orphan-a" "us-a".
Proof.
  intros H. exists [neg "k8s1-orphan-a"; neg "k8s1-orphan-b"], (neg "k8s1-orphan-a").
  rewrite H. split_and!; [done | by left | done].
Qed.

(** Scenario 2 of section 8: once port 443 has left the annotation, [GC]
    deletes its NEG in both zones and leaves the NEGs of port 80. *)
Example GC_after_port_removed :
  (GC managerReduced fooCloud).2 = None
  ∧ negs (GC managerReduced fooCloud).1.2
    = {[ "us-a" := [neg "k8s1-default-foo-80"];
         "us-b" := [neg "k8s1-default-foo-80"] ]}.
Proof. split; vm_compute; reflexivity. Qed.

(** C2, as stated, fails: the cloud refuses every get with a 503. [GC]
    returns no error, and the orphan NEG, whose name the namer recognises and
    which no service declares, is still in the cloud. *)
Lemma C2_orphan_survives_refused_get :
  (GC (newSyncerManager testNamer) (orphanCloud unavailable noFault)).2 = None
  ∧ inCloud (GC (newSyncerManager testNamer) (orphanCloud unavailable noFault)).1.2
      "k8s1-orphan-a" "us-a"
  ∧ IsNEG testNamer "k8s1-orphan-a" = true
  ∧ ¬ live (GC (newSyncerManager testNamer) (orphanCloud unavailable noFault)).1.1
        "k8s1-orphan-a".
Proof.
  split_and!.
  - vm_compute. reflexivity.
  - apply (inCloud_orphan_a unavailable noFault). vm_compute. reflexivity.
  - vm_compute. reflexivity.
  - apply live_new.
Qed.

(** C2, amended. When the cloud refuses no get (a get fails only with
    [NotFound], for a NEG that is not there) and [GC] returns no error, every
    cloud NEG whose name the namer recognises is the NEG of a declared
    service port. *)
Theorem C2_GC_deletes_orphans m c name zone :
  (∀ name zone, getFault c name zone = None) →
  (GC m c).2 = None →
  inCloud (GC m c).1.2 name zone →
  IsNEG (namer (GC m c).1.1) name = true →
  live (GC m c).1.1 name.
Proof.
  unfold GC. intros Hget.
  pose proof (garbageCollectNEG_orphans (collectSyncers m) c name zone Hget) as H.
  destruct (garbageCollectNEG (collectSyncers m) c) as [c' [err|]]; simpl in *;
    [done|].
  intros _. by apply H.
Qed.

(** C2, amended, on [default/foo] once port 443 has left the annotation,
    with the NEGs of both ports in two zones on a cloud that refuses no call:
    [GC] gets and deletes the NEG of port 443 in both zones and returns no
    error; the NEG of port 80 is still in the cloud, the namer recognises it,
    and it is live. *)
Lemma C2_GC_deletes_orphans_witness :
  calls (GC managerReduced fooCloud).1.2
  = [CallAggregatedList;
     CallGet "k8s1-default-foo-443" "us-a";
     CallDelete "k8s1-default-foo-443" "us-a";
     CallGet "k8s1-default-foo-443" "us-b";
     CallDelete "k8s1-default-foo-443" "us-b"]
  ∧ (GC managerReduced fooCloud).2 = None
  ∧ inCloud (GC managerReduced fooCloud).1.2 "k8s1-default-foo-80" "us-a"
  ∧ live (GC managerReduced fooCloud).1.1 "k8s1-default-foo-80".
Proof.
  assert ((GC managerReduced fooCloud).2 = None) as Hok
    by (vm_compute; reflexivity).
  assert (inCloud (GC managerReduced fooCloud).1.2 "k8s1-default-foo-80" "us-a")
    as Hin.
  { exists [neg "k8s1-default-foo-80"], (neg "k8s1-default-foo-80").
    split; [vm_compute; reflexivity|]. split; [by left | reflexivity]. }
  split; [vm_compute; reflexivity|].
  split; [exact Hok|]. split; [exact Hin|].
  apply (C2_GC_deletes_orphans managerReduced fooCloud
           "k8s1-default-foo-80" "us-a").
  - intros x y. reflexivity.
  - exact Hok.
  - exact Hin.
  - vm_compute. reflexivity.
Defined.

(** C5, as stated, fails for a [NotFound] of the delete: the get returns the
    NEG, the NEG is gone by the time the delete arrives and the provider
    answers [NotFound]. The operation returns that error, and [GC] fails
    with it. *)
Lemma C5_NotFound_on_delete_is_failure :
  (GetNetworkEndpointGroup (orphanCloud noFault gone) "k8s1-orphan-a" "us-a").2
  = inr (neg "k8s1-orphan-a")
  ∧ (DeleteNetworkEndpointGroup
       (GetNetworkEndpointGroup (orphanCloud noFault gone)
          "k8s1-orphan-a" "us-a").1 "k8s1-orphan-a" "us-a").2
    = Some NotFound
  ∧ (ensureDeleteNetworkEndpointGroup (orphanCloud noFault gone)
       "k8s1-orphan-a" "us-a").2 = Some (ErrCloud NotFound)
  ∧ (GC (newSyncerManager testNamer) (orphanCloud noFault gone)).2
    = Some (Errorf "Failed to garbage collect negs: %v" []
              (Errorf "failed to delete NEG %q in %q: %v" ["k8s1-orphan-a"; "us-a"]
                 (ErrCloud NotFound))).
Proof. split_and!; vm_compute; reflexivity. Qed.

(** C5, amended. The operation learns that the NEG does not exist from the
    get: when the get reports [NotFound], or the cloud holds no NEG of that
    name in the zone, it returns no error, makes the get call only, and
    leaves the NEGs of the cloud as they are. A [NotFound] of the delete,
    after a get that returned the NEG, is returned like any other error of
    the delete, and the loop of [GC] stops with it. *)
Theorem C5_NotFound_on_get_is_success c name zone :
  ((GetNetworkEndpointGroup c name zone).2 = inl NotFound
   ∨ ¬ inCloud c name zone →
   (ensureDeleteNetworkEndpointGroup c name zone).2 = None
   ∧ negs (ensureDeleteNetworkEndpointGroup c name zone).1 = negs c
   ∧ calls (ensureDeleteNetworkEndpointGroup c name zone).1
     = calls c ++ [CallGet name zone])
  ∧ (∀ g, (GetNetworkEndpointGroup c name zone).2 = inr g →
       (DeleteNetworkEndpointGroup (GetNetworkEndpointGroup c name zone).1
          name zone).2 = Some NotFound →
       (ensureDeleteNetworkEndpointGroup c name zone).2 = Some (ErrCloud NotFound)
       ∧ negs (ensureDeleteNetworkEndpointGroup c name zone).1 = negs c
       ∧ calls (ensureDeleteNetworkEndpointGroup c name zone).1
         = calls c ++ [CallGet name zone; CallDelete name zone]
       ∧ ∀ names,
           (deleteNames c zone (name :: names)).2
           = Some (Errorf "failed to delete NEG %q in %q: %v" [name; zone]
                     (ErrCloud NotFound))).
Proof.
  split.
  - intros Habs.
    unfold ensureDeleteNetworkEndpointGroup.
    destruct (GetNetworkEndpointGroup c name zone) as [c1 [e|g]] eqn:Eget.
    + simpl. split; [done|].
      unfold GetNetworkEndpointGroup in Eget. simpl in Eget.
      destruct (getFault c name zone);
        [|destruct (findNEG (logCall c (CallGet name zone)) name zone)];
        by simplify_eq.
    + exfalso. destruct Habs as [Hnf|Habs]; [done|].
      unfold GetNetworkEndpointGroup in Eget. simpl in Eget.
      destruct (getFault c name zone); [done|].
      destruct (findNEG (logCall c (CallGet name zone)) name zone) eqn:E;
        [|done].
      apply Habs. by apply findNEG_Some in E.
  - intros g Hget Hdel.
    assert ((ensureDeleteNetworkEndpointGroup c name zone).2
            = Some (ErrCloud NotFound)
            ∧ negs (ensureDeleteNetworkEndpointGroup c name zone).1 = negs c
            ∧ calls (ensureDeleteNetworkEndpointGroup c name zone).1
              = calls c ++ [CallGet name zone; CallDelete name zone]) as H.
    { unfold ensureDeleteNetworkEndpointGroup.
      destruct (GetNetworkEndpointGroup c name zone) as [c1 [e|g']] eqn:Eget;
        [done|]. simpl in Hdel |- *. rewrite Hdel. simpl.
      split; [done|].
      unfold GetNetworkEndpointGroup in Eget. simpl in Eget.
      destruct (getFault c name zone); [done|].
      destruct (findNEG (logCall c (CallGet name zone)) name zone) eqn:E;
        [|done].
      simplify_eq. revert Hdel.
      unfold DeleteNetworkEndpointGroup. simpl.
      destruct (deleteFault c name zone).
      - simpl. intros _. by rewrite <- app_assoc.
      - change (findNEG (logCall (logCall c (CallGet name zone))
                           (CallDelete name zone)) name zone)
          with (findNEG (logCall c (CallGet name zone)) name zone).
        by rewrite E. }
    destruct H as (Herr & Hnegs & Hcalls). split_and!; [done..|].
    intros names. simpl.
    destruct (ensureDeleteNetworkEndpointGroup c name zone) as [c1 r].
    simpl in Herr. by rewrite Herr.
Qed.

(** C5, amended, on both sides: a name the cloud does not hold, where the get
    reports [NotFound] and the operation succeeds; and an orphan the get
    returns while the delete reports [NotFound], where it fails. *)
Lemma C5_NotFound_on_get_is_success_witness :
  ((GetNetworkEndpointGroup (orphanCloud noFault noFault) "k8s1-gone" "us-a").2
   = inl NotFound
   ∧ (ensureDeleteNetworkEndpointGroup (orphanCloud noFault noFault)
        "k8s1-gone" "us-a").2 = None
   ∧ negs (ensureDeleteNetworkEndpointGroup (orphanCloud noFault noFault)
             "k8s1-gone" "us-a").1
     = negs (orphanCloud noFault noFault))
  ∧ (ensureDeleteNetworkEndpointGroup (orphanCloud noFault gone)
       "k8s1-orphan-a" "us-a").2 = Some (ErrCloud NotFound)
  ∧ calls (ensureDeleteNetworkEndpointGroup (orphanCloud noFault gone)
             "k8s1-orphan-a" "us-a").1
    = [CallGet "k8s1-orphan-a" "us-a"; CallDelete "k8s1-orphan-a" "us-a"].
Proof.
  assert ((GetNetworkEndpointGroup (orphanCloud noFault noFault)
             "k8s1-gone" "us-a").2 = inl NotFound) as Hget
    by (vm_compute; reflexivity).
  destruct (C5_NotFound_on_get_is_success (orphanCloud noFault noFault)
              "k8s1-gone" "us-a") as [Hsucc _].
  destruct (Hsucc (or_introl Hget)) as (H1 & H2 & _).
  destruct (C5_NotFound_on_get_is_success (orphanCloud noFault gone)
              "k8s1-orphan-a" "us-a") as [_ Hfail].
  destruct (Hfail (neg "k8s1-orphan-a")) as (H3 & _ & H4 & _).
  - vm_compute. reflexivity.
  - vm_compute. reflexivity.
  - split; [by split_and!|]. split; [exact H3 | exact H4].
Defined.

(** ** The deletion loops as one loop *)






(** ** One deletion, by what the provider answers *)






(** An error of [GC] is one failure: the refused aggregated list, or one
    failed deletion with its NEG name and zone, and the failed call is the
    last cloud call [GC] makes. *)
Lemma GC_error_is_one_failure m c err :
  (GC m c).2 = Some err →
  (∃ e, err = Errorf "Failed to garbage collect negs: %v" []
                (Errorf "failed to retrieve aggregated NEG list: %v" []
                   (ErrCloud e))
        ∧ last (calls (GC m c).1.2) = Some CallAggregatedList)
  ∨ (∃ name zone e,
        err = Errorf "Failed to garbage collect negs: %v" []
                (Errorf "failed to delete NEG %q in %q: %v" [name; zone]
                   (ErrCloud e))
        ∧ last (calls (GC m c).1.2) = Some (CallDelete name zone)).
Proof.
  unfold GC, garbageCollectNEG, AggregatedListNetworkEndpointGroup. simpl.
  destruct (listFault c) as [e|]; simpl.
  - intros [= <-]. left. exists e. split; [done|]. by rewrite last_snoc.
  - pose proof (deleteZones_error
      (map_to_list (negs c)).*1
      (List (deleteLiveNames (collectSyncers m)
               (collectNEGNames (namer (collectSyncers m)) (negs c))))
      (logCall c CallAggregatedList)) as H.
    destruct (deleteZones _ _ _) as [c' [err'|]]; simpl in *; [|done].
    intros [= <-]. destruct (H err' eq_refl) as (name & zone & e & _ & _ & -> & Hl).
    right. by exists name, zone, e.
Qed.




(** C9. Whatever error the get returns, [NotFound] or not,
    [ensureDeleteNetworkEndpointGroup] returns no error, never calls delete
    and leaves the NEGs of the cloud as they are; the loop of [GC] goes on
    with the next name. *)
Theorem C9_get_error_skips_delete c name zone e :
  (GetNetworkEndpointGroup c name zone).2 = inl e →
  (ensureDeleteNetworkEndpointGroup c name zone).2 = None
  ∧ calls (ensureDeleteNetworkEndpointGroup c name zone).1
    = calls c ++ [CallGet name zone]
  ∧ negs (ensureDeleteNetworkEndpointGroup c name zone).1 = negs c
  ∧ ∀ names, deleteNames c zone (name :: names)
             = deleteNames (logCall c (CallGet name zone)) zone names.
Proof.
  unfold deleteNames at 1. fold deleteNames.
  unfold ensureDeleteNetworkEndpointGroup, GetNetworkEndpointGroup. simpl.
  destruct (getFault c name zone); [done|].
  by destruct (findNEG (logCall c (CallGet name zone)) name zone).
Qed.

(** C9 on an orphan that is in the cloud while the get is refused with a
    503: no delete, no error, the orphan stays. *)
Lemma C9_get_error_skips_delete_witness :
  inCloud (orphanCloud unavailable noFault) "k8s1-orphan-a" "us-a"
  ∧ (ensureDeleteNetworkEndpointGroup (orphanCloud unavailable noFault)
       "k8s1-orphan-a" "us-a").2 = None
  ∧ calls (ensureDeleteNetworkEndpointGroup (orphanCloud unavailable noFault)
             "k8s1-orphan-a" "us-a").1
    = [CallGet "k8s1-orphan-a" "us-a"]
  ∧ negs (ensureDeleteNetworkEndpointGroup (orphanCloud unavailable noFault)
            "k8s1-orphan-a" "us-a").1
    = negs (orphanCloud unavailable noFault).
Proof.
  split; [by apply (inCloud_orphan_a unavailable noFault)|].
  destruct (C9_get_error_skips_delete (orphanCloud unavailable noFault)
              "k8s1-orphan-a" "us-a" (ServerError 503)) as (H1 & H2 & H3 & _).
  - reflexivity.
  - split; [exact H1|]. split; [exact H2 | exact H3].
Defined.

(** * The claim about the retry loop *)

Section retry_loop.
Context (mr base cap : nat).

Lemma iterate_started :
  syncers.iterate false (syncers.started mr base cap)
  = if (mr <? 1)%nat then exhausted mr base cap 1 1 else retrying mr base cap 1.
Proof.
  unfold syncers.iterate, syncers.reconcile, syncers.NextRetryDelay. simpl.
  destruct mr; simpl; [done|]. unfold retrying. simpl.
  by rewrite Nat.mul_1_r.
Qed.

Lemma iterate_retrying j :
  (1 ≤ j)%nat →
  syncers.iterate false (retrying mr base cap j)
  = if (mr <? S j)%nat then exhausted mr base cap (S j) 1
    else retrying mr base cap (S j).
Proof.
  intros Hj. unfold syncers.iterate, syncers.reconcile, syncers.NextRetryDelay.
  cbn -[Nat.ltb Nat.pow Nat.min Nat.mul].
  destruct (mr <? S j)%nat eqn:E; cbn -[Nat.pow Nat.min Nat.mul]; [done|].
  unfold retrying. do 3 f_equal. cbn -[Nat.pow Nat.min Nat.mul].
  by rewrite Nat.sub_0_r.
Qed.

Lemma blocked_exhausted j f : syncers.blocked (exhausted mr base cap j f).
Proof. by intros ok. Qed.

Lemma run_blocked fuel body s : syncers.blocked s → syncers.run fuel body s = s.
Proof.
  intros Hb. induction fuel as [|fuel IH]; simpl; [done|]. by rewrite Hb.
Qed.

Lemma run_add a b body s :
  syncers.run (a + b) body s = syncers.run b body (syncers.run a body s).
Proof. revert s. induction a as [|a IH]; intros s; simpl; [done|]. apply IH. Qed.

Lemma run_retrying k j :
  (1 ≤ j ≤ mr)%nat → (j + k = mr + 1)%nat →
  syncers.run k syncers.alwaysFails (retrying mr base cap j)
  = exhausted mr base cap (mr + 1) 1.
Proof.
  revert j. induction k as [|k IH]; intros j Hj Hk; [lia|].
  cbn [syncers.run]. unfold syncers.alwaysFails at 2.
  rewrite iterate_retrying by lia.
  destruct (mr <? S j)%nat eqn:E.
  - apply Nat.ltb_lt in E. assert (k = 0)%nat as -> by lia.
    simpl. f_equal; lia.
  - apply Nat.ltb_ge in E. apply IH; lia.
Qed.

Lemma run_started :
  syncers.run (mr + 1) syncers.alwaysFails (syncers.started mr base cap)
  = exhausted mr base cap (mr + 1) 1.
Proof.
  replace (syncers.run (mr + 1)) with (syncers.run (S mr)) by (f_equal; lia).
  cbn [syncers.run]. unfold syncers.alwaysFails at 2. rewrite iterate_started.
  destruct (mr <? 1)%nat eqn:E.
  - apply Nat.ltb_lt in E. assert (mr = 0)%nat as Hz by lia.
    rewrite Hz at 1. simpl. f_equal; lia.
  - apply Nat.ltb_ge in E. apply run_retrying; lia.
Qed.

Lemma run_started_enough fuel :
  (mr + 1 ≤ fuel)%nat →
  syncers.run fuel syncers.alwaysFails (syncers.started mr base cap)
  = exhausted mr base cap (mr + 1) 1.
Proof.
  intros Hf. replace fuel with ((mr + 1) + (fuel - (mr + 1)))%nat by lia.
  rewrite run_add, run_started. apply run_blocked, blocked_exhausted.
Qed.

Lemma run_poked fuel :
  (1 ≤ fuel)%nat →
  syncers.run fuel syncers.alwaysFails
    (syncers.Sync (exhausted mr base cap (mr + 1) 1))
  = exhausted mr base cap (mr + 2) 2.
Proof.
  intros Hf. destruct fuel as [|fuel]; [lia|]. cbn [syncers.run].
  unfold syncers.alwaysFails at 2.
  assert (syncers.iterate false (syncers.Sync (exhausted mr base cap (mr + 1) 1))
          = exhausted mr base cap (mr + 2) 2) as ->.
  { unfold syncers.iterate, syncers.reconcile, syncers.NextRetryDelay.
    cbn -[Nat.ltb Nat.pow Nat.min Nat.mul].
    assert ((mr <? S (mr + 1))%nat = true) as -> by (apply Nat.ltb_lt; lia).
    cbn. unfold exhausted. do 2 f_equal; [f_equal; lia | lia]. }
  apply run_blocked, blocked_exhausted.
Qed.
End retry_loop.

(** C4. A started syncer whose reconciliation fails every time, left alone
    for long enough, makes [maxRetries + 1] attempts and then waits: it is
    running (neither stopped nor shutting down), no iteration of its loop
    changes it, and one fatal failure is recorded. A poke makes it try once
    more. *)
Theorem C4_retries_exhausted maxRetries base cap fuel :
  (maxRetries + 1 ≤ fuel)%nat →
  syncers.Start
    (syncers.newSyncer
       (syncers.NewExponentialBackendOffHandler maxRetries base cap))
  = Some (syncers.started maxRetries base cap)
  ∧ syncers.syncCount
      (syncers.run fuel syncers.alwaysFails (syncers.started maxRetries base cap))
    = (maxRetries + 1)%nat
  ∧ syncers.state
      (syncers.run fuel syncers.alwaysFails (syncers.started maxRetries base cap))
    = Running
  ∧ syncers.blocked
      (syncers.run fuel syncers.alwaysFails (syncers.started maxRetries base cap))
  ∧ syncers.fatalEvents
      (syncers.run fuel syncers.alwaysFails (syncers.started maxRetries base cap))
    = 1%nat
  ∧ syncers.syncCount
      (syncers.run fuel syncers.alwaysFails
         (syncers.Sync
            (syncers.run fuel syncers.alwaysFails
               (syncers.started maxRetries base cap))))
    = (maxRetries + 2)%nat.
Proof.
  intros Hf. rewrite run_started_enough by done.
  split_and!; [done | done | done | apply blocked_exhausted | done |].
  rewrite run_poked by lia. done.
Qed.

(** C4 on [TestRetryOnSyncError]: with [maxRetry = 3] and no delays, the sync
    count settles at 4. *)
Lemma C4_retries_exhausted_witness :
  syncers.syncCount
    (syncers.run 10 syncers.alwaysFails (syncers.started 3 0 0)) = 4%nat
  ∧ syncers.state
      (syncers.run 10 syncers.alwaysFails (syncers.started 3 0 0)) = Running.
Proof.
  destruct (C4_retries_exhausted 3 0 0 10) as (_ & H1 & H2 & _); [lia|].
  split; [exact H1 | exact H2].
Defined.

(** * The claim about application protocols *)

Lemma checkProtocols_on F l :
  annotations.Http2 F = true →
  Forall (λ e, annotations.accepted e.2) l →
  annotations.checkProtocols F l = None.
Proof.
  intros Hon. induction 1 as [|e l Hacc _ IH]; simpl; [done|].
  destruct Hacc as [->| [->| ->]]; simpl; [done..|]. by rewrite Hon.
Qed.

Lemma checkProtocols_off F l :
  annotations.Http2 F = false →
  Forall (λ e, annotations.accepted e.2) l →
  Exists (λ e, e.2 = "HTTP2") l →
  annotations.checkProtocols F l = Some annotations.UnsupportedProtocol.
Proof.
  intros Hoff. induction 1 as [|e l Hacc _ IH]; intros Hex.
  - by apply Exists_nil in Hex.
  - simpl. destruct Hacc as [He| [He| He]]; rewrite He; simpl.
    + apply IH. apply Exists_cons in Hex as [H|H]; [congruence | done].
    + apply IH. apply Exists_cons in Hex as [H|H]; [congruence | done].
    + by rewrite Hoff.
Qed.

(** The cases of [TestService], on the decoded annotations. *)
Example ApplicationProtocols_TestService :
  let off := {| annotations.Http2 := false |} in
  let on := {| annotations.Http2 := true |} in
  annotations.ApplicationProtocols off (annotations.withAnnotations []) = inr ∅
  ∧ annotations.ApplicationProtocols off
      (annotations.withAnnotations
         [(annotations.GoogleServiceApplicationProtocolKey,
           annotations.Object {[ "80" := "HTTP"; "443" := "HTTPS" ]})])
    = inr {[ "80" := "HTTP"; "443" := "HTTPS" ]}
  ∧ annotations.ApplicationProtocols off
      (annotations.withAnnotations
         [(annotations.GoogleServiceApplicationProtocolKey,
           annotations.Object {[ "80" := "HTTP"; "443" := "HTTPS" ]});
          (annotations.ServiceApplicationProtocolKey,
           annotations.Object {[ "81" := "HTTP"; "444" := "HTTPS" ]})])
    = inr {[ "81" := "HTTP"; "444" := "HTTPS" ]}
  ∧ annotations.ApplicationProtocols off
      (annotations.withProtocols {[ "443" := "HTTP2" ]})
    = inl annotations.UnsupportedProtocol
  ∧ annotations.ApplicationProtocols on
      (annotations.withProtocols {[ "443" := "HTTP2" ]})
    = inr {[ "443" := "HTTP2" ]}
  ∧ annotations.ApplicationProtocols off
      (annotations.withAnnotations
         [(annotations.ServiceApplicationProtocolKey, annotations.Malformed)])
    = inl annotations.AnnotationInvalid
  ∧ annotations.ApplicationProtocols off
      (annotations.withProtocols {[ "SSH" := "22" ]})
    = inl annotations.AnnotationInvalid.
Proof. repeat split; vm_compute; reflexivity. Qed.

(** C8, as stated, fails: with the HTTP/2 flag on, an annotation that maps
    port 443 to [HTTP2] and port 80 to a protocol that is not accepted does
    not parse. *)
Lemma C8_HTTP2_beside_unaccepted_protocol :
  ({[ "443" := "HTTP2"; "80" := "SPDY" ]} : gmap string string) !! "443"
  = Some "HTTP2"
  ∧ annotations.ApplicationProtocols {| annotations.Http2 := true |}
      (annotations.withProtocols {[ "443" := "HTTP2"; "80" := "SPDY" ]})
    = inl annotations.AnnotationInvalid.
Proof. split; vm_compute; reflexivity. Qed.

(** C8, amended. For a service whose application-protocol annotation holds
    accepted protocols only and maps some port to [HTTP2]: parsing fails
    with [UnsupportedProtocol] when the HTTP/2 flag is off, and returns the
    whole map when it is on. *)
Theorem C8_HTTP2_needs_flag F svc (m : gmap string string) port :
  annotations.effective svc = Some (annotations.Object m) →
  (∀ p proto, m !! p = Some proto → annotations.accepted proto) →
  m !! port = Some "HTTP2" →
  (annotations.Http2 F = false →
     annotations.ApplicationProtocols F svc
     = inl annotations.UnsupportedProtocol)
  ∧ (annotations.Http2 F = true →
       annotations.ApplicationProtocols F svc = inr m).
Proof.
  intros Heff Hacc Hport. unfold annotations.ApplicationProtocols. rewrite Heff.
  assert (Forall (λ e, annotations.accepted e.2) (map_to_list m)) as Hall.
  { apply Forall_forall. intros [p proto] Hin.
    apply elem_of_map_to_list in Hin. by eapply Hacc. }
  split; intros Hflag.
  - rewrite checkProtocols_off; [done..|].
    apply Exists_exists. exists (port, "HTTP2"). split; [|done].
    by apply elem_of_map_to_list.
  - by rewrite checkProtocols_on.
Qed.

(** C8, amended, on the annotation of [TestService]. *)
Lemma C8_HTTP2_needs_flag_witness :
  annotations.ApplicationProtocols {| annotations.Http2 := false |}
    (annotations.withProtocols {[ "443" := "HTTP2" ]})
  = inl annotations.UnsupportedProtocol
  ∧ annotations.ApplicationProtocols {| annotations.Http2 := true |}
      (annotations.withProtocols {[ "443" := "HTTP2" ]})
    = inr {[ "443" := "HTTP2" ]}.
Proof.
  assert (∀ F, annotations.effective (annotations.withProtocols {[ "443" := "HTTP2" ]})
               = Some (annotations.Object {[ "443" := "HTTP2" ]}) ∧
               (∀ p proto, ({[ "443" := "HTTP2" ]} : gmap string string) !! p
                           = Some proto → annotations.accepted proto) ∧
               ({[ "443" := "HTTP2" ]} : gmap string string) !! "443"
               = Some "HTTP2" ∧ annotations.Http2 F = annotations.Http2 F)
    as Hhyp.
  { intros F. split_and!; [vm_compute; reflexivity | | vm_compute; reflexivity | done].
    intros p proto H. apply lookup_singleton_Some in H as [_ <-].
    right. right. reflexivity. }
  split.
  - destruct (Hhyp {| annotations.Http2 := false |}) as (H1 & H2 & H3 & _).
    destruct (C8_HTTP2_needs_flag {| annotations.Http2 := false |}
                (annotations.withProtocols {[ "443" := "HTTP2" ]})
                {[ "443" := "HTTP2" ]} "443" H1 H2 H3) as [Hoff _].
    apply Hoff. reflexivity.
  - destruct (Hhyp {| annotations.Http2 := true |}) as (H1 & H2 & H3 & _).
    destruct (C8_HTTP2_needs_flag {| annotations.Http2 := true |}
                (annotations.withProtocols {[ "443" := "HTTP2" ]})
                {[ "443" := "HTTP2" ]} "443" H1 H2 H3) as [_ Hon].
    apply Hon. reflexivity.
Defined.

(** * More about the manager *)

(** ** [StopSyncer] *)



(** X2. [StopSyncer] on a service without a stored port map changes nothing,
    so calling it twice is calling it once. *)
Theorem X2_StopSyncer_idempotent m ns n :
  (svcPortMap m !! getServiceKey ns n = None → StopSyncer m ns n = m)
  ∧ StopSyncer (StopSyncer m ns n) ns n = StopSyncer m ns n.
Proof.
  assert (∀ m', svcPortMap m' !! getServiceKey ns n = None →
                StopSyncer m' ns n = m') as H.
  { intros m' Hnone. unfold StopSyncer. by rewrite Hnone. }
  split; [apply H|]. apply H.
  rewrite StopSyncer_svcPortMap. apply lookup_delete_eq.
Qed.

(** ** [Sync] *)

Lemma poke_idemp s : poke (poke s) = poke s.
Proof. unfold poke, IsStopped, Sync. by destruct (stopped s) eqn:E; simpl; rewrite ?E. Qed.

Lemma syncLoop_lookup_exact ns n l m k :
  syncerMap (foldl (syncPort ns n) m l) !! k
  = if decide (k ∈ keysOf ns n l)
    then poke <$> syncerMap m !! k else syncerMap m !! k.
Proof.
  revert m. induction l as [|e l IH]; intros m.
  - destruct (decide _) as [H|]; [by apply elem_of_nil in H | done].
  - cbn [foldl]. rewrite IH, syncPort_lookup.
    change (keysOf ns n (e :: l)) with (getSyncerKey ns n e.1 e.2 :: keysOf ns n l).
    fold poke.
    destruct (decide (k ∈ keysOf ns n l)), (decide (k = _)),
      (decide (k ∈ _ :: _)) as [Hin|Hnin]; try done.
    + destruct (syncerMap m !! k); simpl; [|done]. by rewrite poke_idemp.
    + exfalso. apply Hnin. by right.
    + exfalso. apply Hnin. by right.
    + exfalso. apply Hnin. subst. by left.
    + exfalso. by apply elem_of_cons in Hin as [?|?].
Qed.

(** X3. [Sync] pokes the syncers of the declared ports of the service that
    are not stopped, and nothing else: the port maps, every other syncer and
    every lifecycle state stay as they are. *)
Theorem X3_Sync_pokes_running_syncers m ns n :
  svcPortMap (SyncService m ns n) = svcPortMap m
  ∧ (∀ k, syncerMap (SyncService m ns n) !! k
          = if decide (entryOf ns n (currentPorts m ns n) k)
            then poke <$> syncerMap m !! k else syncerMap m !! k)
  ∧ (∀ k s', syncerMap (SyncService m ns n) !! k = Some s' →
       ∃ s, syncerMap m !! k = Some s ∧ stateOf s' = stateOf s
            ∧ (IsStopped s = true → s' = s)).
Proof.
  assert (∀ k, syncerMap (SyncService m ns n) !! k
          = if decide (entryOf ns n (currentPorts m ns n) k)
            then poke <$> syncerMap m !! k else syncerMap m !! k) as Hlk.
  { intros k. unfold SyncService, currentPorts.
    destruct (svcPortMap m !! getServiceKey ns n) as [ports|] eqn:E; simpl.
    - rewrite syncLoop_lookup_exact.
      destruct (decide (k ∈ _)) as [H|H], (decide (entryOf _ _ _ _)) as [H'|H'];
        try done; by rewrite elem_of_keysOf in H.
    - rewrite decide_False; [done|]. intros [_ H]. by rewrite lookup_empty in H. }
  split_and!; [apply SyncService_frame | exact Hlk |].
  intros k s' Hs'. rewrite Hlk in Hs'. destruct (decide _).
  - destruct (syncerMap m !! k) as [s|]; simplify_eq/=. exists s.
    split_and!; [done | |]; unfold poke, stateOf, IsStopped, Sync;
      destruct (stopped s) eqn:E; simpl; rewrite ?E; done.
  - by exists s'.
Qed.

(** ** [ShutDown] *)

Lemma SyncService_all_stopped m ns n :
  (∀ k s, syncerMap m !! k = Some s → IsStopped s = true) →
  SyncService m ns n = m.
Proof.
  intros Hall. unfold SyncService.
  destruct (svcPortMap m !! getServiceKey ns n) as [ports|]; [|done].
  induction (map_to_list ports) as [|e l IH]; simpl; [done|].
  assert (syncPort ns n m e = m) as ->; [|exact IH].
  unfold syncPort. destruct (syncerMap m !! _) as [s|] eqn:E; [|done].
  by rewrite (Hall _ _ E).
Qed.

(** X4. After [ShutDown] every registered syncer is stopped, while the port
    maps and the registered keys are as before; a [Sync] that follows pokes
    nothing, and a second [ShutDown] changes nothing. *)
Theorem X4_ShutDown_stops_all m :
  (∀ k s, syncerMap (ShutDown m) !! k = Some s → IsStopped s = true)
  ∧ svcPortMap (ShutDown m) = svcPortMap m
  ∧ dom (syncerMap (ShutDown m)) = dom (syncerMap m)
  ∧ (∀ ns n, SyncService (ShutDown m) ns n = ShutDown m)
  ∧ ShutDown (ShutDown m) = ShutDown m.
Proof.
  assert (∀ k s, syncerMap (ShutDown m) !! k = Some s → IsStopped s = true) as H.
  { intros k s Hk. simpl in Hk. rewrite lookup_fmap in Hk.
    destruct (syncerMap m !! k); simplify_eq/=. apply Stop_IsStopped. }
  split_and!; [exact H | done | apply dom_fmap_L | |].
  - intros ns n. by apply SyncService_all_stopped.
  - unfold ShutDown, setSyncerMap. simpl. f_equal.
    rewrite <- map_fmap_compose. apply map_fmap_ext. intros k s _. apply Stop_idemp.
Qed.

(** ** [GC] and the registry *)

Lemma getAllStoppedSyncerKeys_elem m k :
  k ∈ getAllStoppedSyncerKeys m
  ↔ ∃ s, syncerMap m !! k = Some s ∧ IsStopped s = true.
Proof.
  unfold getAllStoppedSyncerKeys. rewrite list_elem_of_omap. split.
  - intros ([k' s] & Hin & Hk). simpl in Hk.
    destruct (IsStopped s) eqn:E; simplify_eq.
    exists s. split; [by apply elem_of_map_to_list | done].
  - intros (s & Hs & Hst). exists (k, s). split.
    + by apply elem_of_map_to_list.
    + simpl. by rewrite Hst.
Qed.

Lemma collectLoop_lookup l m k :
  syncerMap (foldl garbageCollectSyncer m l) !! k
  = if decide (k ∈ l)
    then s ← syncerMap m !! k;
         (if IsStopped s && negb (IsShuttingDown s) then None else Some s)
    else syncerMap m !! k.
Proof.
  revert m. induction l as [|e l IH]; intros m.
  - destruct (decide _) as [H|]; [by apply elem_of_nil in H | done].
  - cbn [foldl]. rewrite IH, garbageCollectSyncer_lookup.
    destruct (decide (k ∈ l)), (decide (k = e)),
      (decide (k ∈ e :: l)) as [Hin|Hnin]; try done.
    + destruct (syncerMap m !! k) as [s|]; simpl; [|done].
      destruct (IsStopped s && negb (IsShuttingDown s)) eqn:E; simpl; [done|].
      by rewrite E.
    + exfalso. apply Hnin. by right.
    + exfalso. apply Hnin. by right.
    + exfalso. apply Hnin. subst. by left.
    + exfalso. by apply elem_of_cons in Hin as [?|?].
Qed.

Lemma stateOf_Stopped s :
  stateOf s = Stopped ↔ IsStopped s && negb (IsShuttingDown s) = true.
Proof.
  unfold stateOf, IsStopped, IsShuttingDown.
  destruct (stopped s), (shuttingDown s); naive_solver.
Qed.

Lemma collectSyncers_lookup m k s :
  syncerMap (collectSyncers m) !! k = Some s
  ↔ syncerMap m !! k = Some s ∧ stateOf s ≠ Stopped.
Proof.
  unfold collectSyncers. rewrite collectLoop_lookup.
  destruct (decide _) as [Hin|Hnin].
  - destruct (syncerMap m !! k) as [s0|]; simpl; [|naive_solver].
    destruct (IsStopped s0 && negb (IsShuttingDown s0)) eqn:E.
    + apply stateOf_Stopped in E. naive_solver.
    + split; [|naive_solver]. intros [= ->]. split; [done|].
      rewrite stateOf_Stopped. by rewrite E.
  - split; [|naive_solver]. intros Hs. split; [done|].
    rewrite stateOf_Stopped. intros Hst. apply Hnin.
    apply getAllStoppedSyncerKeys_elem. exists s. split; [done|].
    by apply andb_true_iff in Hst as [? _].
Qed.

Lemma GC_manager m c : (GC m c).1.1 = collectSyncers m.
Proof. unfold GC. by destruct (garbageCollectNEG _ _) as [? [?|]]. Qed.

(** X5. Whatever the cloud does, [GC] removes from the registry exactly the
    syncers that are stopped and no longer shutting down: a running syncer
    and one that is still shutting down stay, unchanged, and the port maps
    are not touched. *)
Theorem X5_GC_collects_stopped_syncers m c :
  (∀ k s, syncerMap (GC m c).1.1 !! k = Some s
          ↔ syncerMap m !! k = Some s ∧ stateOf s ≠ Stopped)
  ∧ svcPortMap (GC m c).1.1 = svcPortMap m.
Proof.
  rewrite GC_manager. split; [apply collectSyncers_lookup|].
  apply collectSyncers_frame.
Qed.

(** ** [EnsureSyncers] composed with itself and with [StopSyncer] *)

Lemma Difference_diag (P : PortNameMap) : Difference P P = ∅.
Proof.
  apply map_empty. intros p. destruct (Difference P P !! p) as [tp|] eqn:E; [|done].
  apply lookup_Difference in E as [? ?]. done.
Qed.

Lemma Difference_empty_l (P : PortNameMap) : Difference ∅ P = ∅.
Proof.
  apply map_empty. intros p. destruct (Difference ∅ P !! p) as [tp|] eqn:E; [|done].
  apply lookup_Difference in E as [E _]. by rewrite lookup_empty in E.
Qed.

(** X6. [EnsureSyncers] called with the port map that is already stored for
    the service changes nothing and returns no error, whatever the state of
    the syncers of these ports. *)
Theorem X6_EnsureSyncers_stored_map_is_noop m ns n P :
  svcPortMap m !! getServiceKey ns n = Some P →
  EnsureSyncers m ns n P = (m, None).
Proof.
  intros HP. unfold EnsureSyncers. rewrite HP. simpl.
  rewrite Difference_diag, map_to_list_empty. simpl.
  f_equal. destruct m as [nm spm sm al]. unfold setSvcPortMap. simpl in *.
  f_equal. by apply insert_id.
Qed.

(** X6 after [ShutDown]: both syncers of [default/foo] are stopped, the call
    with the stored map returns no error and starts none of them. *)
Lemma X6_EnsureSyncers_stored_map_is_noop_witness :
  EnsureSyncers (ShutDown managerStarted) "default" "foo" fooPorts
  = (ShutDown managerStarted, None)
  ∧ ∃ s, syncerMap (ShutDown managerStarted) !! key443 = Some s
         ∧ IsStopped s = true.
Proof.
  split.
  - apply X6_EnsureSyncers_stored_map_is_noop. vm_compute. reflexivity.
  - eexists. split; [vm_compute; reflexivity | reflexivity].
Defined.

(** X7. [EnsureSyncers] with an empty port map leaves the registry as
    [StopSyncer] does and returns no error; it stores the empty map for the
    service where [StopSyncer] removes the entry. *)
Theorem X7_EnsureSyncers_empty_map_stops_like_StopSyncer m ns n :
  syncerMap (EnsureSyncers m ns n ∅).1 = syncerMap (StopSyncer m ns n)
  ∧ (EnsureSyncers m ns n ∅).2 = None
  ∧ svcPortMap (EnsureSyncers m ns n ∅).1 !! getServiceKey ns n = Some ∅
  ∧ svcPortMap (StopSyncer m ns n) !! getServiceKey ns n = None.
Proof.
  assert (∀ k, ¬ entryOf ns n ∅ k) as Hno.
  { intros k [_ H]. by rewrite lookup_empty in H. }
  split_and!.
  - apply map_eq. intros k. rewrite StopSyncer_lookup.
    destruct (decide _) as [Hent|Hent].
    + by apply EnsureSyncers_removed.
    + apply EnsureSyncers_untouched. split; intros H; [by apply Hno in H | done].
  - rewrite EnsureSyncers_error. by rewrite Difference_empty_l, map_to_list_empty.
  - rewrite EnsureSyncers_svcPortMap. apply lookup_insert_eq.
  - rewrite StopSyncer_svcPortMap. apply lookup_delete_eq.
Qed.

(** ** The key and the NEG name of a registered syncer *)

Lemma Stop_named s : NegSyncerKey (Stop s) = NegSyncerKey s ∧ negName (Stop s) = negName s.
Proof. unfold Stop. by destruct (stopped s). Qed.

Lemma restart_named s :
  NegSyncerKey (restart s) = NegSyncerKey s ∧ negName (restart s) = negName s.
Proof. unfold restart, Start. by destruct (IsStopped s), (IsShuttingDown s). Qed.













(** ** What [GC] leaves in the cloud *)

Lemma deleteNames_preserves names c zone n z :
  n ∉ names → inCloud c n z → inCloud (deleteNames c zone names).1 n z.
Proof.
  revert c. induction names as [|x names IH]; intros c Hn Hin; simpl; [done|].
  apply not_elem_of_cons in Hn as [Hne Hn].
  pose proof (ensureDelete_preserves c x zone n z) as Hp.
  destruct (ensureDeleteNetworkEndpointGroup c x zone) as [c1 [err|]];
    simpl in *; [apply Hp | apply IH; [done | apply Hp]]; naive_solver.
Qed.

Lemma deleteZones_preserves zones names c n z :
  n ∉ names → inCloud c n z → inCloud (deleteZones c zones names).1 n z.
Proof.
  revert c. induction zones as [|zone zones IH]; intros c Hn Hin; simpl; [done|].
  pose proof (deleteNames_preserves names c zone n z Hn Hin) as Hp.
  destruct (deleteNames c zone names) as [c1 [err|]]; simpl in *; [done|].
  by apply IH.
Qed.

Lemma insertNEGNames_inv nm l (acc : gset string) n :
  n ∈ insertNEGNames nm acc l → n ∈ acc ∨ IsNEG nm n = true.
Proof.
  unfold insertNEGNames. revert acc.
  induction l as [|g l IH]; intros acc H; simpl in *; [by left|].
  apply IH in H as [H|H]; [|by right].
  destruct (IsNEG nm (Name g)) eqn:E; [|by left].
  apply elem_of_union in H as [H|H]; [|by left].
  apply elem_of_singleton in H. subst. by right.
Qed.

Lemma collectNEGNames_IsNEG nm (zl : gmap string (list NetworkEndpointGroup)) n :
  n ∈ collectNEGNames nm zl → IsNEG nm n = true.
Proof.
  unfold collectNEGNames.
  assert (∀ L (acc : gset string),
    n ∈ foldl (λ acc (zl : string * list NetworkEndpointGroup),
                 insertNEGNames nm acc zl.2) acc L →
    n ∈ acc ∨ IsNEG nm n = true) as H.
  { induction L as [|e L IH]; intros acc Hin; simpl in *; [by left|].
    apply IH in Hin as [Hin|?]; [|by right]. by apply insertNEGNames_inv in Hin. }
  intros Hin. apply H in Hin as [Hin|?]; [|done]. by apply not_elem_of_empty in Hin.
Qed.

Lemma deleteServiceNames_elem nm e (acc : gset string) n :
  n ∈ deleteServiceNames nm acc e →
  n ∈ acc ∧ ∀ p tp, e.2 !! p = Some tp →
                    n ≠ NEG nm (svc_namespace e.1) (svc_name e.1) p.
Proof.
  unfold deleteServiceNames.
  assert (∀ l (acc : gset string),
    n ∈ foldl (λ acc (sp : Z * string),
                 acc ∖ {[NEG nm (svc_namespace e.1) (svc_name e.1) sp.1]}) acc l →
    n ∈ acc ∧ ∀ sp, sp ∈ l → n ≠ NEG nm (svc_namespace e.1) (svc_name e.1) sp.1)
    as H.
  { induction l as [|sp l IH]; intros acc0 Hin; simpl in *.
    - split; [done|]. intros sp Hsp. by apply elem_of_nil in Hsp.
    - apply IH in Hin as [Hin Hl]. split; [set_solver|].
      intros sp' [->|Hsp']%elem_of_cons; [set_solver | by apply Hl]. }
  intros Hin. apply H in Hin as [Hin Hl]. split; [done|].
  intros p tp Hp. apply (Hl (p, tp)). by apply elem_of_map_to_list.
Qed.

Lemma deleteLiveNames_elem m (acc : gset string) n :
  n ∈ deleteLiveNames m acc → n ∈ acc ∧ ¬ live m n.
Proof.
  unfold deleteLiveNames, live.
  assert (∀ L (acc : gset string),
    n ∈ foldl (deleteServiceNames (namer m)) acc L →
    n ∈ acc ∧ ∀ e p tp, e ∈ L → e.2 !! p = Some tp →
      n ≠ NEG (namer m) (svc_namespace e.1) (svc_name e.1) p) as H.
  { induction L as [|e L IH]; intros acc0 Hin; simpl in *.
    - split; [done|]. intros e p tp He. by apply elem_of_nil in He.
    - apply IH in Hin as [Hin HL].
      apply deleteServiceNames_elem in Hin as [Hin He]. split; [done|].
      intros e' p tp [->|He']%elem_of_cons Hp; [by eapply He | by eapply HL]. }
  intros Hin. apply H in Hin as [Hin HL]. split; [done|].
  intros (key & P & p & tp & Hkey & HP & Hn).
  apply (HL (key, P) p tp); [by apply elem_of_map_to_list | done..].
Qed.

Lemma live_collectSyncers m n : live (collectSyncers m) n ↔ live m n.
Proof.
  unfold live. by destruct (collectSyncers_frame m) as (-> & -> & _).
Qed.

(** [GC] never removes a NEG that the namer does not recognise or that is
    the NEG of a declared port, whether or not it returns an error. *)
Lemma GC_preserves m c n z :
  inCloud c n z → IsNEG (namer m) n = false ∨ live m n →
  inCloud (GC m c).1.2 n z.
Proof.
  intros Hin Hkeep.
  assert (inCloud (garbageCollectNEG (collectSyncers m) c).1 n z) as H.
  { unfold garbageCollectNEG, AggregatedListNetworkEndpointGroup. simpl.
    destruct (listFault c); [done|].
    apply deleteZones_preserves; [|done].
    rewrite elem_of_List. intros [Hcol Hlive]%deleteLiveNames_elem.
    apply collectNEGNames_IsNEG in Hcol.
    destruct (collectSyncers_frame m) as (Hnm & _ & _). rewrite Hnm in Hcol.
    destruct Hkeep as [Hneg|Hl]; [congruence|].
    by apply Hlive, live_collectSyncers. }
  unfold GC. by destruct (garbageCollectNEG _ _) as [? [?|]].
Qed.

(** X9. [GC] only ever deletes orphans: a cloud NEG whose name the namer
    does not recognise, or whose name is the NEG name of a declared service
    port, is still in the cloud after [GC], whether [GC] returns an error or
    not; and [GC] adds no NEG to the cloud. *)
Theorem X9_GC_keeps_foreign_and_live_NEGs m c :
  (∀ n z, inCloud c n z → IsNEG (namer m) n = false ∨ live m n →
          inCloud (GC m c).1.2 n z)
  ∧ (∀ n z, inCloud (GC m c).1.2 n z → inCloud c n z).
Proof.
  split; [intros n z; apply GC_preserves|].
  intros n z. unfold GC.
  assert (shrinks c (garbageCollectNEG (collectSyncers m) c).1) as (_ & _ & H).
  { unfold garbageCollectNEG, AggregatedListNetworkEndpointGroup. simpl.
    destruct (listFault c); [apply shrinks_logCall|].
    eapply shrinks_trans; [apply shrinks_logCall | apply deleteZones_shrinks]. }
  destruct (garbageCollectNEG _ _) as [? [?|]]; apply H.
Qed.



(** * Server versions *)

(** The cases of [TestParseVersion] and the bad version of
    [TestVersionsAcrossClusters]. *)
Example parseVersion_tests :
  validator.parseVersion "v1.2.3" = inr (1, 2, 3)%N
  ∧ validator.parseVersion "v10.200.3000" = inr (10, 200, 3000)%N
  ∧ validator.parseVersion "v1.9.3-gke.0" = inr (1, 9, 3)%N
  ∧ validator.parseVersion "v0.8.a" = inl (validator.ErrSyntax "")
  ∧ validator.parseVersion "v1.-2.3" = inl (validator.ErrSyntax "")
  ∧ validator.parseVersion "blah v1.9.1"
    = inl (validator.ErrNoComponents "blah v1.9.1")
  ∧ validator.parseVersion "1.10.1" = inl (validator.ErrNoComponents "1.10.1")
  ∧ validator.parseVersion "v1.bad.data.0" = inl (validator.ErrSyntax "").
Proof. repeat split; vm_compute; reflexivity. Qed.

(** X11. [serverVersionNewEnough] accepts exactly the versions that are at
    least 1.8.1, compared component by component, and are not 1.10.0. *)
Theorem X11_serverVersionNewEnough_spec major minor patch :
  validator.serverVersionNewEnough major minor patch = true
  ↔ ((1 < major)%N
     ∨ major = 1%N ∧ ((8 < minor)%N ∨ minor = 8%N ∧ (1 ≤ patch)%N))
    ∧ ¬ (major = 1%N ∧ minor = 10%N ∧ patch = 0%N).
Proof.
  unfold validator.serverVersionNewEnough.
  destruct (major =? 1)%N eqn:E1, (minor =? 10)%N eqn:E2, (patch =? 0)%N eqn:E3;
    simpl;
    destruct (1 <? major)%N eqn:E4, (major <? 1)%N eqn:E5, (8 <? minor)%N eqn:E6,
      (minor <? 8)%N eqn:E7, (1 <=? patch)%N eqn:E8;
    rewrite ?N.eqb_eq, ?N.eqb_neq, ?N.ltb_lt, ?N.ltb_ge, ?N.leb_le, ?N.leb_gt in *;
    split; try done; try lia; intros; exfalso; lia.
Qed.

(** ** [parseVersion] *)

Arguments validator.anyChar : simpl never.

Lemma head_bind_first {A B} (f : A → list B) (l : list A) x y :
  head l = Some x → head (f x) = Some y → head (l ≫= f) = Some y.
Proof.
  destruct l as [|x' l]; [done|]. intros [= ->]. simpl.
  by destruct (f x).
Qed.

Lemma digitSplits_head d r :
  validator.allDigits d = true → validator.startsWithDigit r = false →
  head (validator.digitSplits (d +:+ r)) = Some (d, r).
Proof.
  intros Hd Hr. induction d as [|c d IH]; simpl in *.
  - change ("" +:+ r) with r. destruct r as [|c r]; [done|].
    simpl in *. by rewrite Hr.
  - apply andb_true_iff in Hd as [Hc Hd]. rewrite Hc.
    specialize (IH Hd). destruct (validator.digitSplits (d +:+ r)); [done|].
    simpl in *. by simplify_eq.
Qed.

Lemma digitSplits_elem s g r :
  (g, r) ∈ validator.digitSplits s → s = g +:+ r.
Proof.
  revert g r. induction s as [|c s IH]; intros g r Hin; simpl in Hin.
  - apply list_elem_of_singleton in Hin. by simplify_eq.
  - destruct (validator.isDigit c).
    + apply elem_of_app in Hin as [Hin|Hin].
      * apply list_elem_of_fmap in Hin as ([g' r'] & Heq & Hin'). simplify_eq/=.
        by rewrite (IH _ _ Hin').
      * apply list_elem_of_singleton in Hin. by simplify_eq.
    + apply list_elem_of_singleton in Hin. by simplify_eq.
Qed.

Lemma parseDigits_inv s0 maxVal n s v :
  validator.parseDigits s0 maxVal n s = inr v →
  (n ≤ maxVal)%N → validator.allDigits s = true ∧ (v ≤ maxVal)%N.
Proof.
  revert n. induction s as [|c s IH]; intros n; simpl.
  - by intros [= ->].
  - destruct (validator.isDigit c); [|done].
    destruct (maxVal <? _)%N eqn:E; [done|]. apply N.ltb_ge in E.
    intros H _. by apply IH in H.
Qed.

Lemma ParseUint_inv s v :
  validator.ParseUint s 32 = inr v →
  s ≠ EmptyString ∧ validator.allDigits s = true ∧ (v < 2 ^ 32)%N.
Proof.
  unfold validator.ParseUint. destruct s as [|c s]; [done|].
  intros H. apply parseDigits_inv in H as [Hd Hv]; [|lia].
  split_and!; [done | done | lia].
Qed.

Lemma first_lo c sz lo hi :
  validator.first c = Some (sz, lo, hi) → (128 ≤ lo)%N.
Proof.
  unfold validator.first.
  repeat (match goal with
          | |- context [if ?b then _ else _] => destruct b
          end); intros H; simplify_eq; lia.
Qed.

Lemma isDigit_byte c : validator.isDigit c = true → (Ascii.N_of_ascii c ≤ 57)%N.
Proof.
  unfold validator.isDigit, Ascii.nat_of_ascii.
  intros [_ H]%andb_true_iff. apply Nat.leb_le in H. lia.
Qed.

Lemma startsWithDigit_app d r :
  d ≠ EmptyString → validator.allDigits d = true →
  validator.startsWithDigit (d +:+ r) = true.
Proof.
  destruct d as [|c d]; [done|]. simpl. by intros _ [H _]%andb_true_iff.
Qed.

(** What [DecodeRuneInString] returns is the head of its input, one to four
    bytes wide. *)
Lemma DecodeRuneInString_inv s ch r :
  validator.DecodeRuneInString s = Some (ch, r) →
  s = ch +:+ r ∧ (1 ≤ String.length ch ≤ 4)%nat.
Proof.
  unfold validator.DecodeRuneInString. destruct s as [|s0 r0]; [done|].
  destruct (validator.first s0) as [[[sz lo] hi]|];
    [|intros [= <- <-]; split; [reflexivity | simpl; lia]].
  repeat (first
    [ match goal with
      | |- context [if ?b then _ else _] => destruct b
      end
    | match goal with
      | |- context [match ?x with EmptyString => _ | String _ _ => _ end] =>
          destruct x
      end ]);
    intros [= <- <-]; (split; [reflexivity | simpl; lia]).
Qed.

Lemma anyChar_elem s ch r :
  (ch, r) ∈ validator.anyChar s →
  validator.DecodeRuneInString s = Some (ch, r) ∧ ch ≠ validator.newline.
Proof.
  unfold validator.anyChar.
  destruct (validator.DecodeRuneInString s) as [[ch' r']|];
    [|by intros ?%elem_of_nil].
  destruct (String.eqb ch' validator.newline) eqn:E; [by intros ?%elem_of_nil|].
  intros Hin%list_elem_of_singleton. simplify_eq.
  split; [done|]. by apply String.eqb_neq.
Qed.

(** A byte that is no newline and stands before a digit is a character of
    its own, also when it is the first byte of a longer sequence: a digit
    does not continue one. *)
Lemma anyChar_byte c r :
  Ascii.nat_of_ascii c ≠ 10%nat → validator.startsWithDigit r = true →
  validator.anyChar (String c r) = [(String c EmptyString, r)].
Proof.
  intros Hc Hr.
  assert (String.eqb (String c EmptyString) validator.newline = false) as Hnl.
  { apply String.eqb_neq. intros [= ->]. by apply Hc. }
  unfold validator.anyChar, validator.DecodeRuneInString.
  destruct (validator.first c) as [[[sz lo] hi]|] eqn:E; [|by rewrite Hnl].
  destruct r as [|s1 r1]; [done|]. simpl in Hr.
  assert (validator.inRange lo hi s1 = false) as ->.
  { apply first_lo in E. apply isDigit_byte in Hr.
    unfold validator.inRange. apply andb_false_iff. left.
    apply N.leb_gt. lia. }
  cbn [negb]. by rewrite Hnl.
Qed.

(** X12. A version string made of [v], three runs of digits that each parse
    as a 32-bit number, one separator after the first and one after the
    second run, and a rest that does not begin with a digit, parses to the
    three numbers. The separators need not be dots: any character that is
    neither a digit nor a newline will do. *)
Theorem X12_parseVersion_well_formed d1 c1 d2 c2 d3 rest major minor patch :
  validator.ParseUint d1 32 = inr major →
  validator.ParseUint d2 32 = inr minor →
  validator.ParseUint d3 32 = inr patch →
  validator.isDigit c1 = false → Ascii.nat_of_ascii c1 ≠ 10%nat →
  validator.isDigit c2 = false → Ascii.nat_of_ascii c2 ≠ 10%nat →
  validator.startsWithDigit rest = false →
  validator.parseVersion (validator.versionString d1 c1 d2 c2 d3 rest)
  = inr (major, minor, patch).
Proof.
  intros H1 H2 H3 Hc1 Hn1 Hc2 Hn2 Hrest.
  destruct (ParseUint_inv _ _ H1) as (_ & Hd1 & _).
  destruct (ParseUint_inv _ _ H2) as (He2 & Hd2 & _).
  destruct (ParseUint_inv _ _ H3) as (He3 & Hd3 & _).
  assert (∀ c d r, Ascii.nat_of_ascii c ≠ 10%nat →
            d ≠ EmptyString → validator.allDigits d = true →
            head (validator.anyChar (String c (d +:+ r)))
            = Some (String c EmptyString, d +:+ r)) as Hany.
  { intros c d r Hc Hne Hd. rewrite anyChar_byte; [done..|].
    by apply startsWithDigit_app. }
  assert (∃ whole, validator.FindStringSubmatch
                     (validator.versionString d1 c1 d2 c2 d3 rest)
                   = [whole; d1; d2; d3]) as [whole Hm].
  { eexists. unfold validator.FindStringSubmatch, validator.versionString.
    rewrite Ascii.eqb_refl. unfold validator.submatches.
    erewrite head_bind_first; [done | by apply digitSplits_head |]. simpl.
    eapply head_bind_first; [by apply Hany|]. simpl.
    eapply head_bind_first; [by apply digitSplits_head|]. simpl.
    eapply head_bind_first; [by apply Hany|]. simpl.
    eapply head_bind_first; [by apply digitSplits_head|]. done. }
  unfold validator.parseVersion. rewrite Hm. simpl. by rewrite H1, H2, H3.
Qed.

(** X12 on a GKE version, and with dashes for separators. *)
Lemma X12_parseVersion_well_formed_witness :
  validator.parseVersion "v1.9.3-gke.0" = inr (1, 9, 3)%N
  ∧ validator.parseVersion "v1-9-3" = inr (1, 9, 3)%N.
Proof.
  split.
  - apply (X12_parseVersion_well_formed "1" validator.dot "9" validator.dot
             "3" "-gke.0"); vm_compute; congruence.
  - apply (X12_parseVersion_well_formed "1" validator.dash "9" validator.dash
             "3" ""); vm_compute; congruence.
Defined.

(** The separators are characters, not bytes: the two bytes of an accented
    letter are one separator, the first of them alone (an encoding error)
    is one too, and a newline is none. *)
Example parseVersion_wide_separators :
  validator.parseVersion
    (validator.versionOf "1" validator.eAcute "2" validator.eAcute "3" "")
  = inr (1, 2, 3)%N
  ∧ validator.parseVersion
      (validator.versionString "1" validator.cut "2" validator.cut "3" "")
    = inr (1, 2, 3)%N
  ∧ validator.parseVersion
      (validator.versionOf "1" validator.newline "2" "." "3" "")
    = inl (validator.ErrNoComponents
             (validator.versionOf "1" validator.newline "2" "." "3" "")).
Proof. split_and!; vm_compute; reflexivity. Qed.

(** X13. When [parseVersion] succeeds, the version string begins with [v]
    followed by a run of digits, one character, a run of digits, one
    character and a run of digits. The three runs parse to the numbers
    returned (so none is empty) and each number is below 2^32; each of the
    two separators is the first character of what follows the run before it,
    one to four bytes wide, and no newline. *)
Theorem X13_parseVersion_sound version major minor patch :
  validator.parseVersion version = inr (major, minor, patch) →
  ∃ d1 s1 d2 s2 d3 rest,
    version = validator.versionOf d1 s1 d2 s2 d3 rest
    ∧ validator.ParseUint d1 32 = inr major
    ∧ validator.ParseUint d2 32 = inr minor
    ∧ validator.ParseUint d3 32 = inr patch
    ∧ (major < 2 ^ 32 ∧ minor < 2 ^ 32 ∧ patch < 2 ^ 32)%N
    ∧ validator.DecodeRuneInString (s1 +:+ d2 +:+ s2 +:+ d3 +:+ rest)
      = Some (s1, d2 +:+ s2 +:+ d3 +:+ rest)
    ∧ validator.DecodeRuneInString (s2 +:+ d3 +:+ rest) = Some (s2, d3 +:+ rest)
    ∧ s1 ≠ validator.newline ∧ s2 ≠ validator.newline
    ∧ (1 ≤ String.length s1 ≤ 4)%nat ∧ (1 ≤ String.length s2 ≤ 4)%nat.
Proof.
  unfold validator.parseVersion, validator.FindStringSubmatch.
  destruct version as [|c s]; [done|].
  destruct (Ascii.eqb c _) eqn:Ev; [|done]. apply Ascii.eqb_eq in Ev. subst c.
  destruct (head (validator.submatches s)) as [m|] eqn:Hhead; [|done].
  apply head_Some_elem_of in Hhead. unfold validator.submatches in Hhead.
  apply list_elem_of_bind in Hhead as ([g1 r1] & Hhead & Hg1).
  apply list_elem_of_bind in Hhead as ([c1 r1'] & Hhead & Hc1).
  apply list_elem_of_bind in Hhead as ([g2 r2] & Hhead & Hg2).
  apply list_elem_of_bind in Hhead as ([c2 r2'] & Hhead & Hc2).
  apply list_elem_of_bind in Hhead as ([g3 r3] & Hhead & Hg3).
  apply list_elem_of_singleton in Hhead. subst m. simpl in *.
  apply digitSplits_elem in Hg1, Hg2, Hg3.
  apply anyChar_elem in Hc1 as [Hc1 Hn1], Hc2 as [Hc2 Hn2].
  destruct (DecodeRuneInString_inv _ _ _ Hc1) as [Hr1 Hl1].
  destruct (DecodeRuneInString_inv _ _ _ Hc2) as [Hr2 Hl2].
  destruct (validator.ParseUint g1 32) as [|a] eqn:E1; [done|].
  destruct (validator.ParseUint g2 32) as [|b] eqn:E2; [done|].
  destruct (validator.ParseUint g3 32) as [|c] eqn:E3; [done|].
  intros [= <- <- <-]. exists g1, c1, g2, c2, g3, r3.
  destruct (ParseUint_inv _ _ E1) as (_ & _ & ?).
  destruct (ParseUint_inv _ _ E2) as (_ & _ & ?).
  destruct (ParseUint_inv _ _ E3) as (_ & _ & ?).
  subst s r1' r2'. subst r2. subst r1.
  split_and!; first [done | lia].
Qed.

(** X13 on a version whose separators are two bytes wide. *)
Lemma X13_parseVersion_sound_witness :
  ∃ d1 s1 d2 s2 d3 rest,
    validator.versionOf "1" validator.eAcute "9" validator.eAcute "3" "-gke.0"
    = validator.versionOf d1 s1 d2 s2 d3 rest
    ∧ validator.ParseUint d1 32 = inr 1%N
    ∧ validator.ParseUint d2 32 = inr 9%N
    ∧ validator.ParseUint d3 32 = inr 3%N
    ∧ (1 < 2 ^ 32 ∧ 9 < 2 ^ 32 ∧ 3 < 2 ^ 32)%N
    ∧ validator.DecodeRuneInString (s1 +:+ d2 +:+ s2 +:+ d3 +:+ rest)
      = Some (s1, d2 +:+ s2 +:+ d3 +:+ rest)
    ∧ validator.DecodeRuneInString (s2 +:+ d3 +:+ rest) = Some (s2, d3 +:+ rest)
    ∧ s1 ≠ validator.newline ∧ s2 ≠ validator.newline
    ∧ (1 ≤ String.length s1 ≤ 4)%nat ∧ (1 ≤ String.length s2 ≤ 4)%nat.
Proof.
  apply (X13_parseVersion_sound
           (validator.versionOf "1" validator.eAcute "9" validator.eAcute
              "3" "-gke.0") 1 9 3).
  vm_compute. reflexivity.
Defined.

(** ** [serverVersionsNewEnough] *)

Lemma checkClients_None l :
  validator.checkClients l = None
  ↔ ∀ key c, (key, c) ∈ l → validator.checkClient key c = None.
Proof.
  induction l as [|[k c] l IH]; simpl.
  - split; [|done]. intros _ key c H. by apply elem_of_nil in H.
  - destruct (validator.checkClient k c) eqn:E.
    + split; [done|]. intros H. specialize (H k c). rewrite E in H.
      apply H. by left.
    + rewrite IH. split.
      * intros H key c' [[= -> ->]|Hin]%elem_of_cons; [done | by apply H].
      * intros H key c' Hin. apply H. by right.
Qed.

(** X14. [serverVersionsNewEnough], and with it [Validate], returns no error
    exactly when every cluster has a discovery client whose server version
    parses to a version that [serverVersionNewEnough] accepts; an empty set
    of clusters passes. *)
Theorem X14_serverVersionsNewEnough_all_clusters
    (clients : gmap string validator.Interface) :
  (validator.serverVersionsNewEnough clients = None
   ↔ ∀ key c, clients !! key = Some c →
       ∃ d gitVersion major minor patch,
         validator.Discovery c = Some d
         ∧ validator.ServerVersion d = inr gitVersion
         ∧ validator.parseVersion gitVersion = inr (major, minor, patch)
         ∧ validator.serverVersionNewEnough major minor patch = true)
  ∧ validator.Validate clients tt = validator.serverVersionsNewEnough clients
  ∧ validator.serverVersionsNewEnough ∅ = None.
Proof.
  split_and!; [|done..].
  unfold validator.serverVersionsNewEnough. rewrite checkClients_None.
  assert (∀ key c, validator.checkClient key c = None
          ↔ ∃ d gitVersion major minor patch,
              validator.Discovery c = Some d
              ∧ validator.ServerVersion d = inr gitVersion
              ∧ validator.parseVersion gitVersion = inr (major, minor, patch)
              ∧ validator.serverVersionNewEnough major minor patch = true) as Hc.
  { intros key c. unfold validator.checkClient.
    destruct (validator.Discovery c) as [d|] eqn:Ed.
    2:{ split; [done|]. by intros (? & ? & ? & ? & ? & ? & _). }
    destruct (validator.ServerVersion d) as [e|git] eqn:Es.
    { split; [done|]. intros (? & ? & ? & ? & ? & [= <-] & ? & _). congruence. }
    destruct (validator.parseVersion git) as [e|[[a b] p]] eqn:E.
    { split; [done|]. intros (? & ? & ? & ? & ? & [= <-] & ? & ? & _). congruence. }
    destruct (validator.serverVersionNewEnough a b p) eqn:E'.
    - split; [|done]. intros _. by exists d, git, a, b, p.
    - split; [done|]. intros (? & ? & ? & ? & ? & [= <-] & ? & ? & ?).
      congruence. }
  split.
  - intros H key c Hk. apply (Hc key c), H. by apply elem_of_map_to_list.
  - intros H key c Hin. apply (Hc key c), (H key). by apply elem_of_map_to_list.
Qed.

(** * The cluster manager *)

(** X15. Whatever the pools do, [GC] of the cluster manager runs the backend
    pool's collection on the state the load-balancer pool's collection
    leaves, also when that one has failed; it returns the load-balancer
    error if there is one and else the backend error. The error of
    [DeleteInstanceGroup] is never returned: with no load balancer left and
    both collections succeeding, [GC] deletes the instance group and returns
    no error even when the deletion fails. *)
Theorem X15_ClusterManager_GC_errors {W E} `{EqDecision E}
    (c : controller.pools W E) lbNames nodePorts (w : W) :
  let r1 := controller.l7Pool_GC c lbNames w in
  let r2 := controller.backendPool_GC c nodePorts r1.1 in
  (controller.GC c lbNames nodePorts w).2
  = match r1.2 with Some e => Some e | None => r2.2 end
  ∧ (controller.GC c lbNames nodePorts w).1
    = if bool_decide (r1.2 = None ∧ r2.2 = None ∧ lbNames = [])
      then (controller.instancePool_DeleteInstanceGroup c
              (controller.ClusterNamer_InstanceGroup c) r2.1).1
      else r2.1.
Proof.
  intros r1 r2. subst r1 r2. unfold controller.GC. cbn zeta.
  destruct (controller.l7Pool_GC c lbNames w) as [w1 [e1|]]; cbn [fst snd].
  { split; [done|]. case_bool_decide as H0; [by destruct H0 | done]. }
  destruct (controller.backendPool_GC c nodePorts w1) as [w2 [e2|]]; cbn [fst snd].
  { split; [done|]. case_bool_decide as H0; [by destruct H0 as (_ & ? & _) | done]. }
  destruct lbNames as [|lb lbNames]; cbn [length Nat.eqb].
  - case_bool_decide as H0; [done|].
    case_bool_decide as H1; [done|]. exfalso. by apply H1.
  - split; [done|]. case_bool_decide as H0; [by destruct H0 as (_ & _ & ?) | done].
Qed.

(** The instance group deletion fails and [GC] returns no error. *)
Example ClusterManager_GC_drops_delete_error :
  controller.GC (controller.loggingPools None None (Some "quota")) [] [30000] []
  = ([controller.L7GC []; controller.BackendGC [30000];
      controller.DeleteInstanceGroup "k8s-ig"], None).
Proof. reflexivity. Qed.

(** * Node ports of ingress backends *)

Lemma foldl_visitPort ib l acc :
  foldl (translator.visitPort ib) acc l
  = match last (filter (λ sp, translator.matchesBackend ib sp = true) l) with
    | Some sp => Some sp
    | None => acc
    end.
Proof.
  revert acc. induction l as [|sp l IH]; intros acc; simpl; [done|].
  rewrite IH. unfold translator.visitPort. rewrite filter_cons.
  destruct (translator.matchesBackend ib sp) eqn:E.
  - rewrite decide_True by done.
    destruct (filter _ l) as [|sp' l'] eqn:Ef; [done|].
    rewrite last_cons_cons. destruct (last (sp' :: l')) eqn:El; [done|].
    by apply last_None in El.
  - by rewrite decide_False by done.
Qed.

(** X16. [getNodePortForIngressBackend] returns the node port of the last
    port of the service that matches the backend (by number for an integer
    service port, by name otherwise): an earlier match does not end the
    search. It returns [-1] with an error exactly when no port matches. *)
Theorem X16_getNodePort_last_match_wins ib svc :
  translator.getNodePortForIngressBackend ib svc
  = match last (filter (λ sp, translator.matchesBackend ib sp = true)
                  (translator.Ports svc)) with
    | Some sp => (translator.NodePort sp, None)
    | None => (-1, Some translator.ErrNoMatchingNodePort)
    end.
Proof.
  unfold translator.getNodePortForIngressBackend. rewrite foldl_visitPort.
  by destruct (last _).
Qed.

(** Two ports named [http]: the node port of the second one is returned. *)
Example getNodePort_duplicate_name :
  translator.getNodePortForIngressBackend
    {| translator.ServiceName := "foo";
       translator.ServicePort :=
         {| translator.Type_ := translator.Str; translator.IntVal := 0;
            translator.StrVal := "http" |} |}
    {| translator.Ports :=
         [ {| translator.Name := "http"; translator.Port := 80;
              translator.NodePort := 30080 |};
           {| translator.Name := "http"; translator.Port := 8080;
              translator.NodePort := 30081 |} ] |}
  = (30081, None).
Proof. reflexivity. Qed.

(** * [GC] on a cloud that refuses nothing *)

Lemma deleteNames_no_fault names c zone :
  (∀ name zone, getFault c name zone = None) →
  (∀ name zone, deleteFault c name zone = None) →
  (deleteNames c zone names).2 = None.
Proof.
  revert c. induction names as [|x names IH]; intros c Hg Hd; simpl; [done|].
  pose proof (ensureDelete_no_fault c x zone (Hg x zone) (Hd x zone)) as Hok.
  pose proof (ensureDelete_shrinks c x zone) as (Hg1 & Hd1 & _).
  destruct (ensureDeleteNetworkEndpointGroup c x zone) as [c1 [err|]];
    simpl in *; [done|].
  apply IH; intros ??; [rewrite Hg1 | rewrite Hd1]; auto.
Qed.

Lemma deleteZones_no_fault zones names c :
  (∀ name zone, getFault c name zone = None) →
  (∀ name zone, deleteFault c name zone = None) →
  (deleteZones c zones names).2 = None.
Proof.
  revert c. induction zones as [|z zones IH]; intros c Hg Hd; simpl; [done|].
  pose proof (deleteNames_no_fault names c z Hg Hd) as Hok.
  pose proof (deleteNames_shrinks names c z) as (Hg1 & Hd1 & _).
  destruct (deleteNames c z names) as [c1 [err|]]; simpl in *; [done|].
  apply IH; intros ??; [rewrite Hg1 | rewrite Hd1]; auto.
Qed.

(** X17. On a cloud that refuses no call, [GC] returns no error, and the
    NEGs the cloud holds afterwards are exactly those it held before whose
    name the namer does not recognise or is the NEG name of a declared
    service port. *)
Theorem X17_GC_without_faults m c :
  listFault c = None →
  (∀ name zone, getFault c name zone = None) →
  (∀ name zone, deleteFault c name zone = None) →
  (GC m c).2 = None
  ∧ ∀ n z, inCloud (GC m c).1.2 n z
           ↔ inCloud c n z ∧ (IsNEG (namer m) n = false ∨ live m n).
Proof.
  intros Hl Hg Hd.
  assert ((garbageCollectNEG (collectSyncers m) c).2 = None) as Hok.
  { unfold garbageCollectNEG, AggregatedListNetworkEndpointGroup. simpl.
    rewrite Hl. by apply deleteZones_no_fault. }
  assert ((GC m c).2 = None ∧
          (GC m c).1.2 = (garbageCollectNEG (collectSyncers m) c).1) as [HGC Hc].
  { unfold GC. destruct (garbageCollectNEG _ _) as [? [?|]]; simpl in *; done. }
  split; [done|]. intros n z. split.
  - intros Hin. split.
    + unfold GC in Hin.
      assert (shrinks c (garbageCollectNEG (collectSyncers m) c).1) as (_ & _ & H).
      { unfold garbageCollectNEG, AggregatedListNetworkEndpointGroup. simpl.
        rewrite Hl.
        eapply shrinks_trans; [apply shrinks_logCall | apply deleteZones_shrinks]. }
      apply H. by rewrite <- Hc.
    + destruct (IsNEG (namer m) n) eqn:E; [right | by left].
      apply live_collectSyncers.
      apply (garbageCollectNEG_orphans (collectSyncers m) c n z); [done..| |].
      * by rewrite <- Hc.
      * by destruct (collectSyncers_frame m) as (-> & _ & _).
  - intros [Hin Hkeep]. by apply GC_preserves.
Qed.

(** X17 on [default/foo] with port 80 declared: the NEG of port 443 goes,
    the NEG of port 80 stays. *)
Lemma X17_GC_without_faults_witness :
  (GC managerReduced fooCloud).2 = None
  ∧ inCloud (GC managerReduced fooCloud).1.2 "k8s1-default-foo-80" "us-b"
  ∧ ¬ inCloud (GC managerReduced fooCloud).1.2 "k8s1-default-foo-443" "us-b".
Proof.
  destruct (X17_GC_without_faults managerReduced fooCloud) as [Hok Hiff];
    [reflexivity | by intros ?? | by intros ?? |].
  split; [exact Hok|]. split.
  - apply Hiff. split.
    + exists [neg "k8s1-default-foo-80"; neg "k8s1-default-foo-443"],
        (neg "k8s1-default-foo-80").
      split; [vm_compute; reflexivity|]. split; [by left | reflexivity].
    + right. exists (getServiceKey "default" "foo"), {[ 80 := "http" ]}, 80, "http".
      split; [vm_compute; reflexivity|]. split; vm_compute; reflexivity.
  - intros Hin. apply Hiff in Hin as [_ [Hneg|Hlive]].
    + vm_compute in Hneg. discriminate Hneg.
    + destruct Hlive as (key & P & p & tp & Hkey & HP & Hn).
      assert (svcPortMap managerReduced
              = {[ getServiceKey "default" "foo" := {[ 80 := "http" ]} ]}) as Hm
        by (vm_compute; reflexivity).
      rewrite Hm in Hkey. apply lookup_singleton_Some in Hkey as [<- <-].
      apply lookup_singleton_Some in HP as [<- <-].
      vm_compute in Hn. discriminate Hn.
Defined.

(** * The registry between two collections *)

(** X18. [EnsureSyncers] removes no syncer from the registry: the keys
    registered afterwards are those registered before and the added keys,
    and a syncer that was registered is still the same object. Only [GC]
    takes syncers out. *)
Theorem X18_EnsureSyncers_registry_grows m ns n P k :
  (is_Some (syncerMap (EnsureSyncers m ns n P).1 !! k)
   ↔ is_Some (syncerMap m !! k)
     ∨ (entryOf ns n P k ∧ ¬ entryOf ns n (currentPorts m ns n) k))
  ∧ (∀ s, syncerMap m !! k = Some s →
       ∃ s', syncerMap (EnsureSyncers m ns n P).1 !! k = Some s'
             ∧ ident s' = ident s ∧ NegSyncerKey s' = NegSyncerKey s).
Proof.
  destruct (decide (entryOf ns n P k)) as [HP|HP];
    destruct (decide (entryOf ns n (currentPorts m ns n) k)) as [Hc|Hc].
  - rewrite EnsureSyncers_untouched by tauto. split; [tauto | eauto].
  - destruct (EnsureSyncers_added m ns n P k HP Hc) as (id & _ & _ & Hlk).
    rewrite Hlk. split; [split; eauto|].
    intros s Hs. eexists. split; [done|]. unfold foundOrNew. rewrite Hs. simpl.
    split; [apply restart_ident | apply restart_named].
  - rewrite EnsureSyncers_removed by done. rewrite fmap_is_Some.
    split; [tauto|]. intros s Hs. rewrite Hs. simpl. eexists. split; [done|].
    split; [apply Stop_ident | apply Stop_named].
  - rewrite EnsureSyncers_untouched by tauto. split; [tauto | eauto].
Qed.
